(** * ChatBI orchestrator: a shallow embedding of the [App] component

    The component keeps the uploaded files, the sheet selection and the list
    of analysis steps in React state, and drives the external
    [analyzeSingleStep] service one step at a time.  This file embeds the
    types of [types.ts], the state of the component, its synchronous
    handlers and its asynchronous handlers, and proves the properties of the
    orchestration.

    A handler is modelled with the values its closure captured when it was
    invoked ([activeSheets], [stepAnalyses]); functional state updates
    ([setStepAnalyses(prev => ...)]) act on the state at the time they are
    applied. *)

From Stdlib Require Import NArith ZArith Lia Ascii String DecimalString.
From Stdlib Require DecimalFacts DecimalNat DecimalN.
From stdpp Require Import base decidable option numbers list.

Local Open Scope nat_scope.

(** ** JavaScript strings

    A JavaScript string is a sequence of UTF-16 code units.  The parsing in
    [runAnalysis] splits on [':'] (code unit 58) and trims ECMAScript white
    space, which contains code units above 255, so strings are kept as lists
    of code units. *)

Abbreviation jsstring := (list N).

Definition of_ascii (s : string) : jsstring :=
  List.map N_of_ascii (list_ascii_of_string s).

(** [WhiteSpace] and [LineTerminator] of ECMAScript, the characters removed
    by [String.prototype.trim]. *)
Definition is_white_space (c : N) : bool :=
  ((9 <=? c) && (c <=? 13) || (c =? 32) || (c =? 160) || (c =? 5760)
   || (8192 <=? c) && (c <=? 8202) || (c =? 8232) || (c =? 8233)
   || (c =? 8239) || (c =? 8287) || (c =? 12288) || (c =? 65279))%N.

Fixpoint trimStart (s : jsstring) : jsstring :=
  match s with
  | c :: s' => if is_white_space c then trimStart s' else s
  | [] => []
  end.

Definition trimEnd (s : jsstring) : jsstring :=
  reverse (trimStart (reverse s)).

Definition trim (s : jsstring) : jsstring := trimEnd (trimStart s).

Definition colon : N := 58%N.

(** [s.split(sep)] for a one-unit separator: always at least one part. *)
Fixpoint split (sep : N) (s : jsstring) : list jsstring :=
  match s with
  | [] => [[]]
  | c :: s' =>
      if (c =? sep)%N then [] :: split sep s'
      else match split sep s' with
           | p :: ps => (c :: p) :: ps
           | [] => [[c]]
           end
  end.

(** [parts.join(sep)]. *)
Fixpoint join (sep : N) (parts : list jsstring) : jsstring :=
  match parts with
  | [] => []
  | [p] => p
  | p :: ps => p ++ sep :: join sep ps
  end.

(** [a || b] on strings: the empty string is the only falsy string. *)
Definition or_else (a b : jsstring) : jsstring :=
  match a with [] => b | _ => a end.

(** Template-literal conversion of a non-negative integer. *)
Definition nat_to_string (n : nat) : jsstring :=
  of_ascii (NilZero.string_of_uint (Nat.to_uint n)).

Definition N_to_string (n : N) : jsstring :=
  of_ascii (NilZero.string_of_uint (N.to_uint n)).

(** ** [types.ts] *)

Inductive JsValue : Type :=
| JsNull
| JsBool (b : bool)
| JsNumber (z : Z)
| JsString (s : jsstring).

(** [DataRow]: an object from column name to cell, in key order. *)
Abbreviation DataRow := (list (jsstring * JsValue)).

Inductive ChartType : Type := bar | line | pie | scatter.

Record ChartConfig : Type := {
  chart_type : ChartType;
  chart_title : jsstring;
  xAxis : jsstring;
  yAxis : jsstring
}.

Record StepResult : Type := {
  summary : jsstring;
  insights : list jsstring;
  charts : list ChartConfig
}.

Inductive Status : Type := pending | analyzing | done | error.

Record StepAnalysis : Type := {
  id : jsstring;
  title : jsstring;
  description : jsstring;
  status : Status;
  result : option StepResult
}.

Record FieldCategorization : Type := {
  ID_Fields : list jsstring;
  Content_Fields : list jsstring;
  Category_Fields : list jsstring;
  Time_Fields : list jsstring;
  Numeric_Fields : list jsstring;
  Other_Fields : list jsstring
}.

Record SheetData : Type := {
  sheet_name : jsstring;
  rows : list DataRow;
  columns : list jsstring;
  fieldCategorization : FieldCategorization
}.

Record FileData : Type := {
  file_name : jsstring;
  sheets : list SheetData;
  activeSheetIndex : nat
}.

Global Instance Status_eq_dec : EqDecision Status.
Proof. solve_decision. Defined.

Global Instance ChartType_eq_dec : EqDecision ChartType.
Proof. solve_decision. Defined.

Global Instance ChartConfig_eq_dec : EqDecision ChartConfig.
Proof. solve_decision. Defined.

Global Instance StepResult_eq_dec : EqDecision StepResult.
Proof. solve_decision. Defined.

Global Instance StepAnalysis_eq_dec : EqDecision StepAnalysis.
Proof. solve_decision. Defined.

(** ** [Set<number>] and [Map<number, Set<number>>]

    Both iterate in insertion order, and [activeSheets] depends on that
    order, so they are kept as lists: a set lists its members, a map its
    entries, oldest first. *)

Abbreviation JsSet := (list nat).
Abbreviation JsMap := (list (nat * list nat)).

Section JsSetOps.
Context {A : Type} `{EqDecision A}.

Definition set_has (x : A) (s : list A) : bool := bool_decide (x ∈ s).

Definition set_add (x : A) (s : list A) : list A :=
  if set_has x s then s else s ++ [x].

Definition set_delete (x : A) (s : list A) : list A :=
  filter (λ y, y ≠ x) s.

Definition set_size (s : list A) : nat := length s.

(** [new Set(iterable)]; [Array.from] of the result is the same list. *)
Definition new_Set (l : list A) : list A :=
  foldl (λ s x, set_add x s) [] l.
End JsSetOps.

Fixpoint map_get (k : nat) (m : JsMap) : option JsSet :=
  match m with
  | [] => None
  | (k', v) :: m' => if decide (k' = k) then Some v else map_get k m'
  end.

(** [m.set(k, v)]: an existing key keeps its position. *)
Fixpoint map_set (k : nat) (v : JsSet) (m : JsMap) : JsMap :=
  match m with
  | [] => [(k, v)]
  | (k', v') :: m' =>
      if decide (k' = k) then (k, v) :: m' else (k', v') :: map_set k v m'
  end.

Definition map_delete (k : nat) (m : JsMap) : JsMap :=
  filter (λ e, e.1 ≠ k) m.

(** [new Map(m)]. *)
Definition new_Map (m : JsMap) : JsMap :=
  foldl (λ acc e, map_set e.1 e.2 acc) [] m.

(** ** Component state *)

Record AppState : Type := {
  fileDatas : option (list FileData);
  stepAnalyses : list StepAnalysis;
  sidebarVisible : bool;
  selectedSheetsMap : JsMap
}.

Definition initialState : AppState := {|
  fileDatas := None;
  stepAnalyses := [];
  sidebarVisible := true;
  selectedSheetsMap := []
|}.

Definition setFileDatas (v : option (list FileData)) (st : AppState) : AppState :=
  {| fileDatas := v; stepAnalyses := stepAnalyses st;
     sidebarVisible := sidebarVisible st; selectedSheetsMap := selectedSheetsMap st |}.

Definition setStepAnalyses (v : list StepAnalysis) (st : AppState) : AppState :=
  {| fileDatas := fileDatas st; stepAnalyses := v;
     sidebarVisible := sidebarVisible st; selectedSheetsMap := selectedSheetsMap st |}.

Definition setSidebarVisible (v : bool) (st : AppState) : AppState :=
  {| fileDatas := fileDatas st; stepAnalyses := stepAnalyses st;
     sidebarVisible := v; selectedSheetsMap := selectedSheetsMap st |}.

Definition setSelectedSheetsMap (v : JsMap) (st : AppState) : AppState :=
  {| fileDatas := fileDatas st; stepAnalyses := stepAnalyses st;
     sidebarVisible := sidebarVisible st; selectedSheetsMap := v |}.

(** ** Synchronous handlers *)

Definition handleDataLoaded (dataArray : list FileData) (st : AppState) : AppState :=
  let st1 := setFileDatas (Some dataArray) st in
  let initialMap : JsMap :=
    if decide (0 < length dataArray) then map_set 0 (new_Set [0]) [] else [] in
  setStepAnalyses [] (setSelectedSheetsMap initialMap st1).

(** The memoised [activeSheets].  [fileDatas[fIdx].sheets[sIdx]] is pushed
    as it is, so an index past the end of [sheets] contributes [undefined]
    ([None]); a file index with no file contributes nothing. *)
Definition activeSheets (st : AppState) : list (option SheetData) :=
  match fileDatas st with
  | None => []
  | Some fds =>
      flat_map (λ entry : nat * list nat,
        flat_map (λ sIdx,
          match fds !! entry.1 with
          | Some fd => [sheets fd !! sIdx]
          | None => []
          end) entry.2)
        (selectedSheetsMap st)
  end.

Definition handleToggleSheet (fileIdx sheetIdx : nat) (st : AppState) : AppState :=
  let newMap := new_Map (selectedSheetsMap st) in
  let set0 := new_Set (default [] (map_get fileIdx newMap)) in
  let set1 :=
    if set_has sheetIdx set0 then set_delete sheetIdx set0
    else set_add sheetIdx set0 in
  let newMap' :=
    if decide (set_size set1 = 0) then map_delete fileIdx newMap
    else map_set fileIdx set1 newMap in
  setSelectedSheetsMap newMap' st.

(** [None] is the [TypeError] of [file.sheets] when [fileDatas[fileIdx]] is
    [undefined]; no state setter has run at that point. *)
Definition handleToggleFile (fileIdx : nat) (st : AppState) : option AppState :=
  match fileDatas st with
  | None => Some st
  | Some fds =>
      match fds !! fileIdx with
      | None => None
      | Some file =>
          let newMap := new_Map (selectedSheetsMap st) in
          let currentlySelected := default (new_Set []) (map_get fileIdx newMap) in
          if decide (set_size currentlySelected = length (sheets file))
          then Some (setSelectedSheetsMap (map_delete fileIdx newMap) st)
          else
            let allIndices := new_Set (imap (λ i _, i) (sheets file)) in
            Some (setSelectedSheetsMap (map_set fileIdx allIndices newMap) st)
      end
  end.

Definition reset (st : AppState) : AppState :=
  setSidebarVisible true
    (setSelectedSheetsMap [] (setStepAnalyses [] (setFileDatas None st))).

(** ** Asynchronous handlers

    An [async] function is a tree of its effects: updates of the
    [stepAnalyses] state and awaited calls of the external
    [analyzeSingleStep], which settles with a result or rejects. *)

Inductive Outcome : Type :=
| Resolved (r : StepResult)
| Rejected.

Record AnalyzeCall : Type := {
  arg_title : jsstring;
  arg_description : jsstring;
  arg_sample : list DataRow;
  arg_columns : list jsstring
}.

Inductive Async (A : Type) : Type :=
| Return (a : A)
| SetSteps (v : list StepAnalysis) (k : Async A)
| UpdateSteps (f : list StepAnalysis → list StepAnalysis) (k : Async A)
| Await (c : AnalyzeCall) (k : Outcome → Async A).

Arguments Return {A} a.
Arguments SetSteps {A} v k.
Arguments UpdateSteps {A} f k.
Arguments Await {A} c k.

Fixpoint bind {A B : Type} (m : Async A) (f : A → Async B) : Async B :=
  match m with
  | Return a => f a
  | SetSteps v k => SetSteps v (bind k f)
  | UpdateSteps g k => UpdateSteps g (bind k f)
  | Await c k => Await c (λ o, bind (k o) f)
  end.

(** [for (let i = 0; i < n; i++) await body(i)], with [indices] the
    values [0 .. n-1] of [i]. *)
Fixpoint for_await (indices : list nat) (body : nat → Async ()) : Async () :=
  match indices with
  | [] => Return ()
  | i :: rest => bind (body i) (λ _, for_await rest body)
  end.

Definition with_status (st : Status) (s : StepAnalysis) : StepAnalysis :=
  {| id := id s; title := title s; description := description s;
     status := st; result := result s |}.

Definition with_done (r : StepResult) (s : StepAnalysis) : StepAnalysis :=
  {| id := id s; title := title s; description := description s;
     status := done; result := Some r |}.

(** [prev.map((s, i) => i === index ? upd(s) : s)]. *)
Definition map_at (index : nat) (upd : StepAnalysis → StepAnalysis)
    (prev : list StepAnalysis) : list StepAnalysis :=
  imap (λ i s, if decide (i = index) then upd s else s) prev.

(** [activeSheets.flatMap(f)] where [f] reads a property of the sheet:
    [None] is the [TypeError] raised on an [undefined] sheet. *)
Fixpoint flatMap_sheets {B : Type} (f : SheetData → list B)
    (act : list (option SheetData)) : option (list B) :=
  match act with
  | [] => Some []
  | None :: _ => None
  | Some s :: act' => (λ r, f s ++ r) <$> flatMap_sheets f act'
  end.

Definition combinedSample (act : list (option SheetData)) : option (list DataRow) :=
  flatMap_sheets (λ s, take 50 (rows s)) act.

Definition combinedColumns (act : list (option SheetData)) : option (list jsstring) :=
  new_Set <$> flatMap_sheets columns act.

(** The arguments of the call in the [try] block; [None] when evaluating
    them throws (an [undefined] sheet, or [step] being [undefined]). *)
Definition call_arguments (act : list (option SheetData))
    (step : option StepAnalysis) : option AnalyzeCall :=
  sample ← combinedSample act;
  cols ← combinedColumns act;
  s ← step;
  Some {| arg_title := title s; arg_description := description s;
          arg_sample := sample; arg_columns := cols |}.

Definition executeStep (act : list (option SheetData)) (index : nat)
    (currentSteps : list StepAnalysis) : Async () :=
  if decide (length act = 0) then Return ()
  else
    let step := currentSteps !! index in
    UpdateSteps (map_at index (with_status analyzing))
      match call_arguments act step with
      | Some c =>
          Await c (λ o,
            match o with
            | Resolved r => UpdateSteps (map_at index (with_done r)) (Return ())
            | Rejected => UpdateSteps (map_at index (with_status error)) (Return ())
            end)
      | None => UpdateSteps (map_at index (with_status error)) (Return ())
      end.

(** The default title, [分析步骤 N]. *)
Definition default_title (n : nat) : jsstring :=
  [20998; 26512; 27493; 39588; 32]%N ++ nat_to_string n.

Definition step_id (now : N) (idx : nat) : jsstring :=
  of_ascii "step-" ++ N_to_string now ++ of_ascii "-" ++ nat_to_string idx.

(** The body of [customSteps.map] in [runAnalysis]; [now] is the reading of
    [Date.now()] for this element. *)
Definition parse_step (now : N) (idx : nat) (s : jsstring) : StepAnalysis :=
  let parts := split colon s in
  let title := or_else (from_option trim [] (parts !! 0)) (default_title (idx + 1)) in
  let description := or_else (trim (join colon (drop 1 parts))) s in
  {| id := step_id now idx; title := title; description := description;
     status := pending; result := None |}.

Definition initial_steps (clock : nat → N) (customSteps : list jsstring) : list StepAnalysis :=
  imap (λ idx s, parse_step (clock idx) idx s) customSteps.

(** [act] is the [activeSheets] captured by the closure, [clock idx] the
    reading of [Date.now()] while element [idx] is mapped. *)
Definition runAnalysis (act : list (option SheetData)) (clock : nat → N)
    (customSteps : option (list jsstring)) : Async () :=
  match customSteps with
  | None => Return ()
  | Some cs =>
      if decide (length cs = 0) then Return ()
      else
        let initialSteps := initial_steps clock cs in
        SetSteps initialSteps
          (for_await (seq 0 (length initialSteps))
             (λ i, executeStep act i initialSteps))
  end.

Definition findIndex (target : jsstring) (l : list StepAnalysis) : option nat :=
  fst <$> list_find (λ s, id s = target) l.

Definition edit_step (newTitle newDescription : jsstring) (s : StepAnalysis) : StepAnalysis :=
  {| id := id s; title := newTitle; description := newDescription;
     status := analyzing; result := result s |}.

(** [stepAnalyses] is the state captured by the closure. *)
Definition handleReAnalyzeStep (act : list (option SheetData))
    (stepAnalyses : list StepAnalysis)
    (target newTitle newDescription : jsstring) : Async () :=
  match findIndex target stepAnalyses with
  | None => Return ()
  | Some index =>
      let updatedSteps := alter (edit_step newTitle newDescription) index stepAnalyses in
      SetSteps updatedSteps (executeStep act index updatedSteps)
  end.

(** ** Running an asynchronous handler

    [exec p oracle steps] runs [p] from the step list [steps]; the [n]-th
    awaited call settles with the [n]-th outcome of [oracle], and a call
    with no outcome left never settles.  The run records every step list
    installed, every call and every settlement. *)

Inductive Event : Type :=
| EvSteps (steps : list StepAnalysis)
| EvCall (c : AnalyzeCall)
| EvSettle (o : Outcome).

Record Run (A : Type) : Type := {
  events : list Event;
  final : list StepAnalysis;
  unused : list Outcome;
  returned : option A
}.

Arguments events {A} r.
Arguments final {A} r.
Arguments unused {A} r.
Arguments returned {A} r.

Definition emit {A : Type} (es : list Event) (r : Run A) : Run A :=
  {| events := es ++ events r; final := final r;
     unused := unused r; returned := returned r |}.

Fixpoint exec {A : Type} (p : Async A) (oracle : list Outcome)
    (steps : list StepAnalysis) : Run A :=
  match p with
  | Return a =>
      {| events := []; final := steps; unused := oracle; returned := Some a |}
  | SetSteps v k => emit [EvSteps v] (exec k oracle v)
  | UpdateSteps f k => emit [EvSteps (f steps)] (exec k oracle (f steps))
  | Await c k =>
      match oracle with
      | [] => {| events := [EvCall c]; final := steps; unused := []; returned := None |}
      | o :: oracle' => emit [EvCall c; EvSettle o] (exec (k o) oracle' steps)
      end
  end.

(** The step lists seen during a run, from the one it starts in. *)
Definition states_of (es : list Event) : list (list StepAnalysis) :=
  omap (λ e, match e with EvSteps s => Some s | _ => None end) es.

Definition calls_of (es : list Event) : list AnalyzeCall :=
  omap (λ e, match e with EvCall c => Some c | _ => None end) es.

(** ** The component as a transition system

    A handler runs to its first [await] before anything else happens; the
    rest of it waits for the settlement of its call and then again runs to
    the next [await].  A configuration is the state together with the
    continuations that wait for a settlement. *)

Record Config : Type := {
  app : AppState;
  tasks : list (Outcome → Async ())
}.

Fixpoint run_to_await (p : Async ()) (steps : list StepAnalysis)
    : list StepAnalysis * option (Outcome → Async ()) :=
  match p with
  | Return _ => (steps, None)
  | SetSteps v k => run_to_await k v
  | UpdateSteps f k => run_to_await k (f steps)
  | Await _ k => (steps, Some k)
  end.

Definition start (p : Async ()) (c : Config) : Config :=
  let r := run_to_await p (stepAnalyses (app c)) in
  {| app := setStepAnalyses r.1 (app c);
     tasks := tasks c ++ option_list r.2 |}.

Inductive Action : Type :=
| DataLoaded (dataArray : list FileData)
| ToggleSheet (fileIdx sheetIdx : nat)
| ToggleFile (fileIdx : nat)
| Reset
| ToggleSidebar
| RunAnalysis (clock : nat → N) (customSteps : option (list jsstring))
| ReAnalyzeStep (target newTitle newDescription : jsstring)
| Settle (task : nat) (o : Outcome).

Definition perform (a : Action) (c : Config) : Config :=
  match a with
  | DataLoaded d => {| app := handleDataLoaded d (app c); tasks := tasks c |}
  | ToggleSheet f s => {| app := handleToggleSheet f s (app c); tasks := tasks c |}
  | ToggleFile f =>
      match handleToggleFile f (app c) with
      | Some st => {| app := st; tasks := tasks c |}
      | None => c
      end
  | Reset => {| app := reset (app c); tasks := tasks c |}
  | ToggleSidebar =>
      {| app := setSidebarVisible (negb (sidebarVisible (app c))) (app c);
         tasks := tasks c |}
  | RunAnalysis clock cs => start (runAnalysis (activeSheets (app c)) clock cs) c
  | ReAnalyzeStep target t d =>
      start (handleReAnalyzeStep (activeSheets (app c)) (stepAnalyses (app c)) target t d) c
  | Settle i o =>
      match tasks c !! i with
      | Some k => start (k o) {| app := app c; tasks := delete i (tasks c) |}
      | None => c
      end
  end.

Definition initialConfig : Config := {| app := initialState; tasks := [] |}.

Definition run_actions (l : list Action) : Config :=
  foldl (λ c a, perform a c) initialConfig l.

Definition reachable (c : Config) : Prop := ∃ l, c = run_actions l.

(** ** Observations on runs *)

Definition status_at (i : nat) (steps : list StepAnalysis) : option Status :=
  status <$> steps !! i.

Definition statuses_of (i : nat) (states : list (list StepAnalysis)) : list Status :=
  omap (status_at i) states.

(** What one step shows of a run: its own status after each update, and the
    calls and settlements in between. *)
Inductive Obs : Type :=
| ObsStatus (s : Status)
| ObsCall
| ObsResolved
| ObsRejected.

Definition observe (i : nat) (e : Event) : option Obs :=
  match e with
  | EvSteps s => ObsStatus <$> status_at i s
  | EvCall _ => Some ObsCall
  | EvSettle (Resolved _) => Some ObsResolved
  | EvSettle Rejected => Some ObsRejected
  end.

(** [chain R a l]: [R] relates every element of [a :: l] to the next. *)
Fixpoint chain {X : Type} (R : X → X → Prop) (a : X) (l : list X) : Prop :=
  match l with
  | [] => True
  | b :: l' => R a b ∧ chain R b l'
  end.

(** ** The step lifecycle *)

(** One move of [pending → analyzing → done|error]; a status may also stay
    as it is while another step is updated. *)
Definition next_status (a b : Status) : bool :=
  match a, b with
  | pending, pending | pending, analyzing
  | analyzing, analyzing | analyzing, done | analyzing, error
  | done, done | error, error => true
  | _, _ => false
  end.

Fixpoint follows (a : Status) (l : list Status) : bool :=
  match l with
  | [] => true
  | b :: l' => next_status a b && follows b l'
  end.

Definition lifecycle (l : list Status) : bool :=
  match l with
  | [] => true
  | a :: l' => bool_decide (a = pending) && follows a l'
  end.

(** The status of step [j] makes a move of the lifecycle, or stays. *)
Definition status_move (j : nat) (st st' : list StepAnalysis) : Prop :=
  ∃ a b, status_at j st = Some a ∧ status_at j st' = Some b ∧ next_status a b = true.

Definition settled (s : Status) : bool :=
  match s with done | error => true | _ => false end.

(** The status a step ends in, by the settlement of its call. *)
Definition status_after (o : option Outcome) (waiting : bool) : Status :=
  match o with
  | Some (Resolved _) => done
  | Some Rejected => error
  | None => if waiting then analyzing else pending
  end.

(** ** Serial execution *)

(** No step has left [pending] before all steps in front of it are settled. *)
Definition serial (steps : list StepAnalysis) : Prop :=
  ∀ i j a b, i < j → status_at i steps = Some a → status_at j steps = Some b →
    b ≠ pending → settled a = true.

Definition one_analyzing (steps : list StepAnalysis) : Prop :=
  ∀ i j, status_at i steps = Some analyzing → status_at j steps = Some analyzing → i = j.

(** Loop position [i]: the steps before [i] are settled, the others
    [pending]. *)
Definition progress (i : nat) (st : list StepAnalysis) : Prop :=
  ∀ j a, status_at j st = Some a →
    (j < i → settled a = true) ∧ (i ≤ j → a = pending).

(** The same while step [i] is analyzed. *)
Definition running (i : nat) (st : list StepAnalysis) : Prop :=
  ∀ j a, status_at j st = Some a →
    (j < i → settled a = true) ∧ (j = i → a = analyzing) ∧ (i < j → a = pending).

(** ** The runs of [executeStep] *)

Definition make_call (sample : list DataRow) (cols : list jsstring)
    (s : StepAnalysis) : AnalyzeCall :=
  {| arg_title := title s; arg_description := description s;
     arg_sample := sample; arg_columns := cols |}.

(** What an execution makes of a step, by the settlement of its call
    ([None]: the call has not settled). *)
Definition settle_with (o : option Outcome) (s : StepAnalysis) : StepAnalysis :=
  match o with
  | Some (Resolved r) => with_done r (with_status analyzing s)
  | Some Rejected => with_status error (with_status analyzing s)
  | None => with_status analyzing s
  end.

(** The four ways an execution with a non-empty selection can go. *)
Inductive step_run (act : list (option SheetData)) (index : nat)
    (cur : list StepAnalysis) (oracle : list Outcome) (st : list StepAnalysis)
    : Run () → Prop :=
| run_throws :
    call_arguments act (cur !! index) = None →
    step_run act index cur oracle st
      {| events := [EvSteps (map_at index (with_status analyzing) st);
                    EvSteps (map_at index (with_status error)
                               (map_at index (with_status analyzing) st))];
         final := map_at index (with_status error)
                    (map_at index (with_status analyzing) st);
         unused := oracle; returned := Some () |}
| run_waits c :
    call_arguments act (cur !! index) = Some c →
    oracle = [] →
    step_run act index cur oracle st
      {| events := [EvSteps (map_at index (with_status analyzing) st); EvCall c];
         final := map_at index (with_status analyzing) st;
         unused := []; returned := None |}
| run_resolves c res rest :
    call_arguments act (cur !! index) = Some c →
    oracle = Resolved res :: rest →
    step_run act index cur oracle st
      {| events := [EvSteps (map_at index (with_status analyzing) st); EvCall c;
                    EvSettle (Resolved res);
                    EvSteps (map_at index (with_done res)
                               (map_at index (with_status analyzing) st))];
         final := map_at index (with_done res)
                    (map_at index (with_status analyzing) st);
         unused := rest; returned := Some () |}
| run_rejects c rest :
    call_arguments act (cur !! index) = Some c →
    oracle = Rejected :: rest →
    step_run act index cur oracle st
      {| events := [EvSteps (map_at index (with_status analyzing) st); EvCall c;
                    EvSettle Rejected;
                    EvSteps (map_at index (with_status error)
                               (map_at index (with_status analyzing) st))];
         final := map_at index (with_status error)
                    (map_at index (with_status analyzing) st);
         unused := rest; returned := Some () |}.

(** ** What an update keeps *)

(** An update that keeps the length of the list and the id of every step. *)
Definition same_ids (prev next : list StepAnalysis) : Prop :=
  length next = length prev ∧ id <$> next = id <$> prev.

(** What an update of [executeStep (index, _)] keeps: every step but the
    one at [index], and of that one the id, the title and the description;
    its result changes only together with the status [done]. *)
Definition execution_update_at (index : nat) (prev next : list StepAnalysis) : Prop :=
  Forall2 (λ s s', id s' = id s ∧ title s' = title s ∧
                   description s' = description s ∧
                   (result s' = result s ∨ status s' = done))
    prev next ∧
  ∀ j, j ≠ index → next !! j = prev !! j.

Definition execution_update (prev next : list StepAnalysis) : Prop :=
  ∃ index, execution_update_at index prev next.

(** As [chain], for a relation that knows the number of the update. *)
Fixpoint chain_from {X : Type} (R : nat → X → X → Prop) (k : nat) (a : X) (l : list X)
    : Prop :=
  match l with
  | [] => True
  | b :: l' => R k a b ∧ chain_from R (S k) b l'
  end.

(** The updates of the loop of [runAnalysis], counted from 0: an execution
    makes two updates, so update [k] belongs to the execution of step
    [k / 2].  It is an update of that step only; the first update of an
    execution marks its step [analyzing], the second one finds it so. *)
Definition run_update (k : nat) (prev next : list StepAnalysis) : Prop :=
  execution_update_at (k / 2) prev next ∧
  status_at (k / 2) (if Nat.even k then next else prev) = Some analyzing.

(** What the first update of [handleReAnalyzeStep] keeps: every id and
    result, and every step but the edited one. *)
Definition edit_update (index : nat) (prev next : list StepAnalysis) : Prop :=
  Forall2 (λ s s', id s' = id s ∧ result s' = result s) prev next ∧
  ∀ j, j ≠ index → next !! j = prev !! j.

(** A handler, or what is left of one, that only updates steps in place:
    it never installs a list of its own, and each of its updates keeps the
    length of the list and the ids. *)
Fixpoint preserving (p : Async ()) : Prop :=
  match p with
  | Return _ => True
  | SetSteps _ _ => False
  | UpdateSteps f k => (∀ prev, same_ids prev (f prev)) ∧ preserving k
  | Await _ k => ∀ o, preserving (k o)
  end.

(** Every continuation that waits for a settlement is of that kind. *)
Definition waiting_preserve (c : Config) : Prop :=
  Forall (λ k : Outcome → Async (), ∀ o, preserving (k o)) (tasks c).

(** ** The sheet selection *)

(** The selection invariant of the data model. *)
Definition nonempty_sets (m : JsMap) : Prop := Forall (λ e, e.2 ≠ []) m.

(** Uploads in which every file has at least one sheet. *)
Definition loads_sheets (a : Action) : Prop :=
  match a with
  | DataLoaded d => Forall (λ f, sheets f ≠ []) d
  | _ => True
  end.

Definition selection_ok (st : AppState) : Prop :=
  nonempty_sets (selectedSheetsMap st) ∧
  ∀ fds, fileDatas st = Some fds → Forall (λ f, sheets f ≠ []) fds.

(** The selected (file, sheet) index pairs in iteration order of the map
    and of each set. *)
Definition selection_order (m : JsMap) : list (nat * nat) :=
  e ← m; (λ sIdx, (e.1, sIdx)) <$> e.2.

(** The selected sheets in iteration order: a pair whose file does not
    exist is skipped, a pair whose sheet does not exist gives [None]. *)
Definition selected_sheets (fds : list FileData) (m : JsMap) : list (option SheetData) :=
  omap (λ p : nat * nat, (λ fd, sheets fd !! p.2) <$> fds !! p.1) (selection_order m).

(** ** The wording of the specification, for comparison *)

(** The text before the first [':'] (all of it when there is none). *)
Fixpoint before_first_colon (s : jsstring) : jsstring :=
  match s with
  | [] => []
  | c :: s' => if (c =? colon)%N then [] else c :: before_first_colon s'
  end.

(** The text after the first [':'], later colons included (empty when
    there is none). *)
Fixpoint after_first_colon (s : jsstring) : jsstring :=
  match s with
  | [] => []
  | c :: s' => if (c =? colon)%N then s' else after_first_colon s'
  end.

(** The duplicate-free union in order of first occurrence. *)
Fixpoint first_occurrences (l : list jsstring) : list jsstring :=
  match l with
  | [] => []
  | x :: l' => x :: filter (λ y, y ≠ x) (first_occurrences l')
  end.

(** A string without white space at either end. *)
Definition trimmed (s : jsstring) : Prop :=
  (∀ c, head s = Some c → is_white_space c = false) ∧
  (∀ c, last s = Some c → is_white_space c = false).

(** The wording of the data model: an update changes nothing but the
    status of a step. *)
Definition only_status_changes (prev next : list StepAnalysis) : Prop :=
  Forall2 (λ s s', id s' = id s ∧ title s' = title s ∧
                   description s' = description s ∧ result s' = result s)
    prev next.

(** ** Sample data for the examples *)

Definition sample_categorization : FieldCategorization :=
  {| ID_Fields := [of_ascii "id"]; Content_Fields := [];
     Category_Fields := [of_ascii "region"]; Time_Fields := [];
     Numeric_Fields := [of_ascii "amount"]; Other_Fields := [] |}.

Definition sample_row (n : Z) : DataRow :=
  [(of_ascii "id", JsNumber n); (of_ascii "region", JsString (of_ascii "north"));
   (of_ascii "amount", JsNumber (10 * n))].

Definition sample_sheet : SheetData :=
  {| sheet_name := of_ascii "Orders";
     rows := sample_row <$> [1; 2; 3]%Z;
     columns := [of_ascii "id"; of_ascii "region"; of_ascii "amount"];
     fieldCategorization := sample_categorization |}.

Definition sample_file : FileData :=
  {| file_name := of_ascii "orders.xlsx"; sheets := [sample_sheet];
     activeSheetIndex := 0 |}.

(** A workbook without sheets. *)
Definition empty_file : FileData :=
  {| file_name := of_ascii "empty.xlsx"; sheets := []; activeSheetIndex := 0 |}.

Definition sample_result : StepResult :=
  {| summary := of_ascii "north leads"; insights := [of_ascii "3 orders"];
     charts := [{| chart_type := bar; chart_title := of_ascii "by region";
                   xAxis := of_ascii "region"; yAxis := of_ascii "amount" |}] |}.

Definition sample_state : AppState := handleDataLoaded [sample_file] initialState.

Definition sample_steps : list jsstring :=
  [of_ascii "Totals: sum amount by region"; of_ascii "Trend: orders over time"].

Definition sample_clock : nat → N := λ _, 1700000000000%N.

(** The step list after both sample steps have been analyzed. *)
Definition sample_analyzed : list StepAnalysis :=
  final (exec (runAnalysis (activeSheets sample_state) sample_clock (Some sample_steps))
           [Resolved sample_result; Resolved sample_result] []).

(** A step list with one pending step. *)
Definition sample_pending : list StepAnalysis :=
  initial_steps sample_clock [of_ascii "Totals: sum amount by region"].

Definition sample_call : AnalyzeCall :=
  {| arg_title := of_ascii "Totals";
     arg_description := of_ascii "sum amount by region";
     arg_sample := rows sample_sheet;
     arg_columns := columns sample_sheet |}.

(** ** Panel layout

    The widths of the two side panels, the two [useRef] flags of the drag
    handles, and the two style properties of [document.body] that the mouse
    handlers write.  Pixel coordinates are integers. *)

Record Layout : Type := {
  leftWidth : Z;
  rightWidth : Z;
  isResizingLeft : bool;
  isResizingRight : bool;
  cursor : jsstring;
  userSelect : jsstring
}.

(** The layout the component mounts with; the body styles are those the
    page has at that time. *)
Definition initialLayout (cursor0 userSelect0 : jsstring) : Layout :=
  {| leftWidth := 300; rightWidth := 380;
     isResizingLeft := false; isResizingRight := false;
     cursor := cursor0; userSelect := userSelect0 |}.

Definition setLeftWidth (w : Z) (l : Layout) : Layout :=
  {| leftWidth := w; rightWidth := rightWidth l;
     isResizingLeft := isResizingLeft l; isResizingRight := isResizingRight l;
     cursor := cursor l; userSelect := userSelect l |}.

Definition setRightWidth (w : Z) (l : Layout) : Layout :=
  {| leftWidth := leftWidth l; rightWidth := w;
     isResizingLeft := isResizingLeft l; isResizingRight := isResizingRight l;
     cursor := cursor l; userSelect := userSelect l |}.

(** [handleMouseMove(e)] with [e.clientX] and [window.innerWidth]. *)
Definition handleMouseMove (clientX innerWidth : Z) (l : Layout) : Layout :=
  let l1 :=
    if isResizingLeft l then
      let newWidth := clientX in
      if ((150 <? newWidth) && (newWidth <? 600))%Z then setLeftWidth newWidth l else l
    else l in
  if isResizingRight l1 then
    let newWidth := (innerWidth - clientX)%Z in
    if ((250 <? newWidth) && (newWidth <? 800))%Z then setRightWidth newWidth l1 else l1
  else l1.

Definition handleMouseUp (l : Layout) : Layout :=
  {| leftWidth := leftWidth l; rightWidth := rightWidth l;
     isResizingLeft := false; isResizingRight := false;
     cursor := []; userSelect := [] |}.

(** The [onMouseDown] handlers of the two drag handles. *)
Definition onMouseDownLeft (l : Layout) : Layout :=
  {| leftWidth := leftWidth l; rightWidth := rightWidth l;
     isResizingLeft := true; isResizingRight := isResizingRight l;
     cursor := of_ascii "col-resize"; userSelect := userSelect l |}.

Definition onMouseDownRight (l : Layout) : Layout :=
  {| leftWidth := leftWidth l; rightWidth := rightWidth l;
     isResizingLeft := isResizingLeft l; isResizingRight := true;
     cursor := of_ascii "col-resize"; userSelect := userSelect l |}.

Inductive MouseEvent : Type :=
| MouseMove (clientX innerWidth : Z)
| MouseUp
| MouseDownLeft
| MouseDownRight.

Definition mouse (e : MouseEvent) (l : Layout) : Layout :=
  match e with
  | MouseMove x w => handleMouseMove x w l
  | MouseUp => handleMouseUp l
  | MouseDownLeft => onMouseDownLeft l
  | MouseDownRight => onMouseDownRight l
  end.

Definition mouse_events (es : list MouseEvent) (l : Layout) : Layout :=
  foldl (λ l e, mouse e l) l es.

Definition is_move (e : MouseEvent) : bool :=
  match e with MouseMove _ _ => true | _ => false end.

Definition widths_in_range (l : Layout) : Prop :=
  (150 < leftWidth l < 600 ∧ 250 < rightWidth l < 800)%Z.

(** ** Reading the selection *)

(** [selectedSheetsMap.get(f)?.has(s)]. *)
Definition selected (m : JsMap) (f s : nat) : bool :=
  match map_get f m with
  | Some set => set_has s set
  | None => false
  end.

(** A list that represents a [Map] of [Set]s: no key and no member occurs
    twice. *)
Definition wf_map (m : JsMap) : Prop :=
  NoDup m.*1 ∧ Forall (λ e, NoDup e.2) m.

(** ** Selections made through the side bar *)

(** What the side bar and the uploader can ask for: an uploaded file has
    at least one sheet, and a sheet that is toggled exists. *)
Definition ui_action (st : AppState) (a : Action) : Prop :=
  match a with
  | DataLoaded d => Forall (λ f, sheets f ≠ []) d
  | ToggleSheet f s =>
      ∃ fds fd, fileDatas st = Some fds ∧ fds !! f = Some fd ∧ s < length (sheets fd)
  | _ => True
  end.

Inductive ui_reachable : Config → Prop :=
| ui_initial : ui_reachable initialConfig
| ui_step c a : ui_reachable c → ui_action (app c) a → ui_reachable (perform a c).

(** Every selected sheet exists. *)
Definition selection_valid (st : AppState) : Prop :=
  ∀ f s, selected (selectedSheetsMap st) f s = true →
    ∃ fds fd sh, fileDatas st = Some fds ∧ fds !! f = Some fd ∧ sheets fd !! s = Some sh.

(** A decimal digit. *)
Definition is_digit (c : N) : Prop := (48 ≤ c ≤ 57)%N.

Definition is_settle (a : Action) : bool :=
  match a with Settle _ _ => true | _ => false end.

(** What [executeStep] does once its call has settled. *)
Definition after_call (index : nat) (o : Outcome) : Async () :=
  match o with
  | Resolved r => UpdateSteps (map_at index (with_done r)) (Return ())
  | Rejected => UpdateSteps (map_at index (with_status error)) (Return ())
  end.

(** * Properties *)

(** ** Runs *)

Lemma exec_bind {A B : Type} (m : Async A) (f : A → Async B) oracle steps :
  exec (bind m f) oracle steps =
    match returned (exec m oracle steps) with
    | Some a =>
        emit (events (exec m oracle steps))
          (exec (f a) (unused (exec m oracle steps)) (final (exec m oracle steps)))
    | None =>
        {| events := events (exec m oracle steps);
           final := final (exec m oracle steps);
           unused := unused (exec m oracle steps);
           returned := None |}
    end.
Proof.
  revert oracle steps.
  induction m as [a|v k IH|g k IH|c k IH]; intros oracle steps; simpl.
  - by destruct (exec (f a) oracle steps).
  - rewrite IH; simpl. by destruct (returned (exec k oracle v)).
  - rewrite IH; simpl. by destruct (returned (exec k oracle (g steps))).
  - destruct oracle as [|o oracle]; [reflexivity|].
    rewrite IH; simpl. by destruct (returned (exec (k o) oracle steps)).
Qed.

Lemma states_of_app es1 es2 :
  states_of (es1 ++ es2) = states_of es1 ++ states_of es2.
Proof. apply omap_app. Qed.

Lemma last_cons {X : Type} (l : list X) a d :
  List.last (a :: l) d = List.last l a.
Proof.
  revert a d. induction l as [|b l IH]; intros a d; [done|].
  change (List.last (a :: b :: l) d) with (List.last (b :: l) d).
  by rewrite !IH.
Qed.

Lemma final_last {A : Type} (p : Async A) oracle steps :
  final (exec p oracle steps) =
    List.last (states_of (events (exec p oracle steps))) steps.
Proof.
  revert oracle steps.
  induction p as [a|v k IH|g k IH|c k IH]; intros oracle steps; [done|..].
  - simpl final. rewrite IH. symmetry. apply (last_cons _ v steps).
  - simpl final. rewrite IH. symmetry. apply (last_cons _ (g steps) steps).
  - destruct oracle as [|o oracle]; [done|]. simpl. apply IH.
Qed.

Lemma chain_app {X : Type} (R : X → X → Prop) a l1 l2 :
  chain R a (l1 ++ l2) ↔ chain R a l1 ∧ chain R (List.last l1 a) l2.
Proof.
  revert a. induction l1 as [|b l1 IH]; intros a; [simpl; tauto|].
  rewrite last_cons. simpl. rewrite IH. tauto.
Qed.

Lemma chain_impl {X : Type} (R R' : X → X → Prop) a l :
  (∀ x y, R x y → R' x y) → chain R a l → chain R' a l.
Proof.
  intros HR. revert a. induction l as [|b l IH]; intros a; simpl; [done|].
  intros [??]. split; auto.
Qed.

(** The loop of [runAnalysis]: if each iteration keeps [R] between the
    step lists it installs and hands [Inv] on to the next index, the whole
    loop keeps [R]. *)
Lemma for_await_chain (R : list StepAnalysis → list StepAnalysis → Prop)
    (Inv : nat → list StepAnalysis → Prop) (body : nat → Async ()) (bound : nat) :
  (∀ i st oracle, i < bound → Inv i st →
     chain R st (states_of (events (exec (body i) oracle st))) ∧
     (returned (exec (body i) oracle st) = Some () →
      Inv (S i) (final (exec (body i) oracle st)))) →
  ∀ m i st oracle, i + m = bound → Inv i st →
    chain R st (states_of (events (exec (for_await (seq i m) body) oracle st))) ∧
    (returned (exec (for_await (seq i m) body) oracle st) = Some () →
     Inv bound (final (exec (for_await (seq i m) body) oracle st))).
Proof.
  intros Hbody m. induction m as [|m IH]; intros i st oracle Hb HInv; simpl.
  - replace bound with i by lia. auto.
  - rewrite exec_bind.
    destruct (Hbody i st oracle ltac:(lia) HInv) as [Hc Hr].
    destruct (returned (exec (body i) oracle st)) as [[]|] eqn:Hret; simpl.
    + specialize (Hr eq_refl).
      destruct (IH (S i) (final (exec (body i) oracle st))
                  (unused (exec (body i) oracle st)) ltac:(lia) Hr) as [Hc' Hr'].
      rewrite states_of_app, chain_app, <- final_last. auto.
    + split; [done|]. discriminate.
Qed.

(** ** Updates of one step *)

Lemma lookup_map_at index upd prev j :
  map_at index upd prev !! j =
    (λ s, if decide (j = index) then upd s else s) <$> prev !! j.
Proof. unfold map_at. by rewrite list_lookup_imap. Qed.

Lemma lookup_map_at_ne index upd prev j :
  j ≠ index → map_at index upd prev !! j = prev !! j.
Proof.
  intros Hne. rewrite lookup_map_at.
  destruct (prev !! j); simpl; [|done]. by rewrite decide_False.
Qed.

Lemma lookup_map_at_eq index upd prev :
  map_at index upd prev !! index = upd <$> prev !! index.
Proof.
  rewrite lookup_map_at.
  destruct (prev !! index); simpl; [|done]. by rewrite decide_True.
Qed.

Lemma length_map_at index upd prev :
  length (map_at index upd prev) = length prev.
Proof. apply length_imap. Qed.

Lemma map_at_same_ids index upd prev :
  (∀ s, id (upd s) = id s) → same_ids prev (map_at index upd prev).
Proof.
  intros Hupd. split; [apply length_map_at|]. apply list_eq. intros j.
  rewrite !list_lookup_fmap, lookup_map_at.
  destruct (prev !! j) as [s|]; simpl; [|done].
  by destruct (decide (j = index)); rewrite ?Hupd.
Qed.

Lemma status_at_map_at_ne index upd prev j :
  j ≠ index → status_at j (map_at index upd prev) = status_at j prev.
Proof. intros. unfold status_at. by rewrite lookup_map_at_ne. Qed.

Lemma status_at_map_at_eq index upd prev :
  status_at index (map_at index upd prev) = (λ s, status (upd s)) <$> prev !! index.
Proof.
  unfold status_at. rewrite lookup_map_at_eq. by destruct (prev !! index).
Qed.

(** ** One execution of a step *)

Lemma executeStep_empty index cur oracle st :
  exec (executeStep [] index cur) oracle st =
    {| events := []; final := st; unused := oracle; returned := Some () |}.
Proof. reflexivity. Qed.

Lemma executeStep_run act index cur oracle st :
  act ≠ [] → step_run act index cur oracle st (exec (executeStep act index cur) oracle st).
Proof.
  intros Hact. unfold executeStep.
  destruct (decide (length act = 0)) as [Hlen|_].
  { by destruct act. }
  destruct (call_arguments act (cur !! index)) as [c|] eqn:Hc; simpl.
  - destruct oracle as [|[res|] rest]; simpl.
    + by eapply run_waits.
    + by eapply run_resolves.
    + by eapply run_rejects.
  - by apply run_throws.
Qed.

Lemma executeStep_elim (P : Run () → Prop) act index cur oracle st :
  (act = [] →
   P {| events := []; final := st; unused := oracle; returned := Some () |}) →
  (∀ r, act ≠ [] → step_run act index cur oracle st r → P r) →
  P (exec (executeStep act index cur) oracle st).
Proof.
  intros Hempty Hrun. destruct act as [|a act].
  - rewrite executeStep_empty. by apply Hempty.
  - apply Hrun; [done|]. by apply executeStep_run.
Qed.

(** ** Status moves *)

Lemma next_status_refl a : next_status a a = true.
Proof. by destruct a. Qed.

Lemma status_move_refl j st st' a :
  status_at j st = Some a → status_at j st' = Some a → status_move j st st'.
Proof. intros ??. exists a, a. by rewrite next_status_refl. Qed.

Lemma status_at_is_Some j st : is_Some (st !! j) ↔ is_Some (status_at j st).
Proof. unfold status_at. by rewrite fmap_is_Some. Qed.

(** While [executeStep] runs for [index], any other step keeps its status;
    the step itself, when it is [pending] or [analyzing], goes to
    [analyzing] and then to [done] or [error]. *)
Lemma executeStep_moves act index cur oracle st j :
  is_Some (st !! j) →
  (j = index → status_at j st = Some pending ∨ status_at j st = Some analyzing) →
  chain (status_move j) st (states_of (events (exec (executeStep act index cur) oracle st))).
Proof.
  intros [s Hs] Hj.
  assert (Ha : status_at j st = Some (status s)) by (unfold status_at; by rewrite Hs).
  apply executeStep_elim; [done|]. intros r _ Hr.
  destruct (decide (j = index)) as [->|Hne].
  - assert (H1 : status_at index (map_at index (with_status analyzing) st) = Some analyzing).
    { rewrite status_at_map_at_eq, Hs. done. }
    assert (H0 : status_move index st (map_at index (with_status analyzing) st)).
    { destruct (Hj eq_refl) as [Hp|Hp]; eexists _, _; split_and!; eauto. }
    destruct Hr; simpl; split_and!; try done.
    all: eexists _, _; split_and!; [exact H1| |];
      [rewrite status_at_map_at_eq, lookup_map_at_eq, Hs; done | done].
  - assert (H1 : ∀ upd, status_at j (map_at index upd st) = Some (status s)).
    { intros upd. by rewrite status_at_map_at_ne. }
    assert (H2 : ∀ upd upd', status_at j (map_at index upd' (map_at index upd st))
                   = Some (status s)).
    { intros upd upd'. by rewrite status_at_map_at_ne. }
    destruct Hr; simpl; split_and!; try done; eauto using status_move_refl.
Qed.

Lemma executeStep_final_ne act index cur oracle st j :
  j ≠ index → final (exec (executeStep act index cur) oracle st) !! j = st !! j.
Proof.
  intros Hne. apply executeStep_elim; [done|]. intros r _ Hr.
  destruct Hr; simpl; by rewrite ?lookup_map_at_ne.
Qed.

Lemma executeStep_final_length act index cur oracle st :
  length (final (exec (executeStep act index cur) oracle st)) = length st.
Proof.
  apply executeStep_elim; [done|]. intros r _ Hr.
  destruct Hr; simpl; by rewrite ?length_map_at.
Qed.

Lemma chain_follows j st states a :
  status_at j st = Some a → chain (status_move j) st states →
  follows a (statuses_of j states) = true ∧
  length (statuses_of j states) = length states.
Proof.
  revert st a. induction states as [|st' states IH]; intros st a Ha; simpl; [done|].
  intros [(a' & b & Ha' & Hb & Hab) Hc].
  assert (a' = a) as -> by congruence.
  unfold statuses_of in *. simpl. rewrite Hb. simpl.
  destruct (IH st' b Hb Hc) as [-> ->]. by rewrite Hab.
Qed.

Lemma lookup_initial_steps clock cs i :
  initial_steps clock cs !! i = parse_step (clock i) i <$> cs !! i.
Proof. unfold initial_steps. by rewrite list_lookup_imap. Qed.

Lemma length_initial_steps clock cs :
  length (initial_steps clock cs) = length cs.
Proof. apply length_imap. Qed.

Lemma status_at_initial_steps clock cs i :
  i < length cs → status_at i (initial_steps clock cs) = Some pending.
Proof.
  intros Hi. unfold status_at. rewrite lookup_initial_steps.
  destruct (lookup_lt_is_Some_2 cs i Hi) as [s ->]. done.
Qed.

(** The loop of [runAnalysis] moves every step along the lifecycle. *)
Lemma runAnalysis_loop_moves act cur j m i st oracle :
  is_Some (st !! j) → (i ≤ j → status_at j st = Some pending) →
  chain (status_move j) st
    (states_of (events (exec (for_await (seq i m) (λ i, executeStep act i cur)) oracle st))).
Proof.
  intros Hs Hp.
  eapply (for_await_chain (status_move j)
            (λ i st, is_Some (st !! j) ∧ (i ≤ j → status_at j st = Some pending))
            _ (i + m)); [|done|done].
  intros k st' oracle' _ [Hs' Hp']. split.
  - apply executeStep_moves; [done|]. intros ->. left. apply Hp'. lia.
  - intros _. split.
    + apply lookup_lt_is_Some. rewrite executeStep_final_length.
      by apply lookup_lt_is_Some.
    + intros Hle. unfold status_at. rewrite executeStep_final_ne by lia.
      apply Hp'. lia.
Qed.


(** ** Serial execution *)

Lemma progress_serial i st : progress i st → serial st ∧ one_analyzing st.
Proof.
  intros Hp. split.
  - intros j k a b Hjk Ha Hb Hne.
    destruct (Hp j a Ha) as [Hlt _], (Hp k b Hb) as [_ Hge].
    destruct (decide (j < i)); [auto|]. destruct Hne. apply Hge. lia.
  - intros j k Hj Hk.
    destruct (Hp j _ Hj) as [Hlt Hge], (Hp k _ Hk) as [Hlt' Hge'].
    destruct (decide (j < i)); [by specialize (Hlt ltac:(done))|].
    by specialize (Hge ltac:(lia)).
Qed.

Lemma running_serial i st : running i st → serial st ∧ one_analyzing st.
Proof.
  intros Hp. split.
  - intros j k a b Hjk Ha Hb Hne.
    destruct (Hp j a Ha) as (Hlt & _ & _), (Hp k b Hb) as (_ & _ & Hgt).
    destruct (decide (j < i)); [auto|]. destruct Hne. apply Hgt. lia.
  - intros j k Hj Hk.
    destruct (Hp j _ Hj) as (Hlt & _ & Hgt), (Hp k _ Hk) as (Hlt' & _ & Hgt').
    destruct (decide (j < i)); [by specialize (Hlt ltac:(done))|].
    destruct (decide (k < i)); [by specialize (Hlt' ltac:(done))|].
    destruct (decide (i < j)); [by specialize (Hgt ltac:(done))|].
    destruct (decide (i < k)); [by specialize (Hgt' ltac:(done))|].
    lia.
Qed.

Lemma status_at_map_at index upd st j a :
  status_at j (map_at index upd st) = Some a →
  (j ≠ index ∧ status_at j st = Some a) ∨
  (j = index ∧ ∃ s, st !! j = Some s ∧ a = status (upd s)).
Proof.
  destruct (decide (j = index)) as [->|Hne].
  - rewrite status_at_map_at_eq. destruct (st !! index) as [s|]; [|done].
    intros [= <-]. right. eauto.
  - rewrite status_at_map_at_ne by done. auto.
Qed.

Lemma progress_running i st :
  progress i st → running i (map_at i (with_status analyzing) st).
Proof.
  intros Hp j a [[Hne Ha]|[-> (s & Hs & ->)]]%status_at_map_at.
  - destruct (Hp j a Ha) as [Hlt Hge]. split_and!; [done|done|].
    intros. apply Hge. lia.
  - split_and!; [lia|done|lia].
Qed.

Lemma running_progress i upd st :
  (∀ s, settled (status (upd s)) = true) →
  running i st → progress (S i) (map_at i upd st).
Proof.
  intros Hupd Hr j a [[Hne Ha]|[-> (s & Hs & ->)]]%status_at_map_at.
  - destruct (Hr j a Ha) as (Hlt & _ & Hgt). split; intros; [apply Hlt|apply Hgt]; lia.
  - split; [done|lia].
Qed.

Lemma executeStep_serial act index cur oracle st :
  act ≠ [] → progress index st →
  Forall (λ st', serial st' ∧ one_analyzing st')
    (states_of (events (exec (executeStep act index cur) oracle st))) ∧
  (returned (exec (executeStep act index cur) oracle st) = Some () →
   progress (S index) (final (exec (executeStep act index cur) oracle st))).
Proof.
  intros Hact Hp.
  pose proof (progress_running _ _ Hp) as Hr.
  pose proof (running_serial _ _ Hr) as Hs.
  assert (Hd : ∀ upd, (∀ s, settled (status (upd s)) = true) →
    progress (S index) (map_at index upd (map_at index (with_status analyzing) st))).
  { intros. by apply running_progress. }
  destruct (executeStep_run act index cur oracle st Hact); simpl;
    (split;
      [ repeat (apply Forall_cons_2); try apply Forall_nil_2; try exact Hs;
        by apply (progress_serial (S index)), Hd
      | intros; try discriminate; by apply Hd ]).
Qed.

Lemma chain_post_Forall {X : Type} (P : X → Prop) a l :
  chain (λ _ y, P y) a l ↔ Forall P l.
Proof.
  revert a. induction l as [|b l IH]; intros a; simpl.
  - split; [constructor|done].
  - rewrite Forall_cons, IH. done.
Qed.

Lemma for_await_empty l cur oracle st :
  exec (for_await l (λ i, executeStep [] i cur)) oracle st =
    {| events := []; final := st; unused := oracle; returned := Some () |}.
Proof.
  induction l as [|i l IH]; [done|]. simpl. apply IH.
Qed.

Lemma runAnalysis_loop_serial act cur m i st oracle :
  act ≠ [] → progress i st →
  Forall (λ st', serial st' ∧ one_analyzing st')
    (states_of (events (exec (for_await (seq i m) (λ i, executeStep act i cur)) oracle st))) ∧
  (returned (exec (for_await (seq i m) (λ i, executeStep act i cur)) oracle st) = Some () →
   progress (i + m) (final (exec (for_await (seq i m) (λ i, executeStep act i cur)) oracle st))).
Proof.
  intros Hact Hp. rewrite <- chain_post_Forall with (a := st).
  eapply (for_await_chain _ progress _ (i + m)); [|done|done].
  intros k st' oracle' _ Hp'. rewrite chain_post_Forall.
  by apply executeStep_serial.
Qed.

Lemma progress_initial_steps clock cs : progress 0 (initial_steps clock cs).
Proof.
  intros j a Ha. split; [lia|]. intros _.
  unfold status_at in Ha. rewrite lookup_initial_steps in Ha.
  destruct (cs !! j); by simplify_eq/=.
Qed.


(** ** The loop of [runAnalysis] in closed form *)

Lemma call_arguments_make act sample cols s :
  combinedSample act = Some sample → combinedColumns act = Some cols →
  call_arguments act (Some s) = Some (make_call sample cols s).
Proof. intros Hs Hc. unfold call_arguments. by rewrite Hs, Hc. Qed.

Lemma call_arguments_Some act step c :
  call_arguments act step = Some c →
  ∃ sample cols s, combinedSample act = Some sample ∧
    combinedColumns act = Some cols ∧ step = Some s ∧ c = make_call sample cols s.
Proof.
  unfold call_arguments. intros Hc.
  destruct (combinedSample act) as [sample|]; [|done].
  destruct (combinedColumns act) as [cols|]; [|done].
  destruct step as [s|]; [|done]. simplify_eq/=. by eexists _, _, _.
Qed.

Lemma calls_of_app es1 es2 : calls_of (es1 ++ es2) = calls_of es1 ++ calls_of es2.
Proof. apply omap_app. Qed.

Lemma runAnalysis_loop_calls act cur sample cols m i st oracle :
  act ≠ [] →
  combinedSample act = Some sample → combinedColumns act = Some cols →
  i + m ≤ length cur →
  let r := exec (for_await (seq i m) (λ i, executeStep act i cur)) oracle st in
  calls_of (events r) =
    take (S (length oracle)) (make_call sample cols <$> take m (drop i cur)) ∧
  (∀ j, final r !! j =
     (λ s, if decide (i ≤ j < i + m ∧ j - i ≤ length oracle)
           then settle_with (oracle !! (j - i)) s else s) <$> st !! j) ∧
  unused r = drop m oracle ∧
  returned r = if decide (m ≤ length oracle) then Some () else None.
Proof.
  intros Hact Hsample Hcols. revert i st oracle.
  induction m as [|m IH]; intros i st oracle Hlen.
  { simpl. split_and!; [done| |done|done].
    intros j. destruct (st !! j); simpl; [|done]. by rewrite decide_False by lia. }
  destruct (lookup_lt_is_Some_2 cur i ltac:(lia)) as [s Hs].
  pose proof (call_arguments_make act sample cols s Hsample Hcols) as Hargs.
  rewrite (drop_S _ _ _ Hs). cbn [seq for_await]. rewrite exec_bind.
  assert (Hsettled : ∀ upd rest,
    let st2 := map_at i upd (map_at i (with_status analyzing) st) in
    let r2 := exec (for_await (seq (S i) m) (λ i, executeStep act i cur)) rest st2 in
    ∀ o, (∀ x, upd (with_status analyzing x) = settle_with (Some o) x) →
    make_call sample cols s :: calls_of (events r2) =
      take (S (S (length rest)))
        (make_call sample cols <$> take (S m) (s :: drop (S i) cur)) ∧
    (∀ j, final r2 !! j =
       (λ s, if decide (i ≤ j < i + S m ∧ j - i ≤ S (length rest))
             then settle_with ((o :: rest) !! (j - i)) s else s) <$> st !! j) ∧
    unused r2 = drop m rest ∧
    returned r2 = if decide (S m ≤ S (length rest)) then Some () else None).
  { intros upd rest st2 r2 o Hupd.
    destruct (IH (S i) st2 rest ltac:(lia)) as (IHc & IHf & IHu & IHr).
    fold r2 in IHc, IHf, IHu, IHr. rewrite IHc, IHu, IHr.
    split_and!; [done| |done|].
    - intros j. rewrite IHf. unfold st2. rewrite !lookup_map_at.
      destruct (st !! j) as [sj|]; simpl; [|done]. f_equal.
      destruct (decide (j = i)) as [->|].
      + rewrite decide_False by lia. rewrite decide_True by lia.
        replace (i - i) with 0 by lia. apply Hupd.
      + destruct (decide (i ≤ j)).
        * replace (j - i) with (S (j - S i)) by lia.
          repeat case_decide; first [done | lia].
        * rewrite !decide_False by lia. done.
    - destruct (decide (m ≤ length rest));
        [by rewrite decide_True by lia|by rewrite decide_False by lia]. }
  destruct (executeStep_run act i cur oracle st Hact)
    as [Hnone|c Hc ->|c res rest Hc ->|c rest Hc ->];
    rewrite Hs, Hargs in *; simplify_eq; cbn [returned events final unused emit].
  - split_and!; [done| |done|done].
    intros j. rewrite lookup_map_at. destruct (st !! j) as [sj|]; simpl; [|done].
    destruct (decide (j = i)) as [->|].
    + rewrite decide_True by lia. by replace (i - i) with 0 by lia.
    + by rewrite decide_False by lia.
  - rewrite calls_of_app. by apply (Hsettled (with_done res) rest (Resolved res)).
  - rewrite calls_of_app. by apply (Hsettled (with_status error) rest Rejected).
Qed.


Lemma call_arguments_cases act :
  (∀ step, call_arguments act step = None) ∨
  (∃ sample cols, combinedSample act = Some sample ∧ combinedColumns act = Some cols).
Proof.
  unfold call_arguments.
  destruct (combinedSample act) as [sample|]; [|by left].
  destruct (combinedColumns act) as [cols|]; [|by left].
  right. by eexists _, _.
Qed.

Lemma runAnalysis_loop_throws act cur m i st oracle :
  act ≠ [] → (∀ step, call_arguments act step = None) →
  let r := exec (for_await (seq i m) (λ i, executeStep act i cur)) oracle st in
  calls_of (events r) = [] ∧
  (∀ j, final r !! j =
     (λ s, if decide (i ≤ j < i + m)
           then with_status error (with_status analyzing s) else s) <$> st !! j) ∧
  unused r = oracle ∧ returned r = Some ().
Proof.
  intros Hact Hnone. revert i st.
  induction m as [|m IH]; intros i st.
  { simpl. split_and!; [done| |done|done].
    intros j. destruct (st !! j); simpl; [|done]. by rewrite decide_False by lia. }
  cbn [seq for_await]. rewrite exec_bind.
  destruct (executeStep_run act i cur oracle st Hact)
    as [_|c Hc ->|c res rest Hc ->|c rest Hc ->];
    try (rewrite Hnone in Hc; discriminate Hc).
  cbn [returned events final unused emit].
  destruct (IH (S i) (map_at i (with_status error) (map_at i (with_status analyzing) st)))
    as (IHc & IHf & IHu & IHr).
  rewrite calls_of_app, IHc, IHu, IHr. split_and!; [done| |done|done].
  intros j. rewrite IHf, !lookup_map_at.
  destruct (st !! j) as [sj|]; simpl; [|done]. f_equal.
  repeat case_decide; first [done | lia].
Qed.


(** ** The step lifecycle *)

Lemma exec_runAnalysis act clock cs oracle st0 :
  cs ≠ [] →
  exec (runAnalysis act clock (Some cs)) oracle st0 =
    emit [EvSteps (initial_steps clock cs)]
      (exec (for_await (seq 0 (length cs))
               (λ i, executeStep act i (initial_steps clock cs)))
            oracle (initial_steps clock cs)).
Proof.
  intros Hcs. unfold runAnalysis.
  destruct (decide (length cs = 0)) as [Hlen|_]; [by destruct cs|].
  by rewrite length_initial_steps.
Qed.

Lemma executeStep_observed act index cur oracle st s :
  act ≠ [] → st !! index = Some s →
  let obs := omap (observe index) (events (exec (executeStep act index cur) oracle st)) in
  obs = [ObsStatus analyzing; ObsCall; ObsResolved; ObsStatus done] ∨
  obs = [ObsStatus analyzing; ObsCall; ObsRejected; ObsStatus error] ∨
  obs = [ObsStatus analyzing; ObsCall] ∨
  obs = [ObsStatus analyzing; ObsStatus error].
Proof.
  intros Hact Hs.
  assert (H1 : status_at index (map_at index (with_status analyzing) st) = Some analyzing).
  { by rewrite status_at_map_at_eq, Hs. }
  assert (H2 : ∀ upd, status_at index (map_at index upd (map_at index (with_status analyzing) st))
                 = Some (status (upd (with_status analyzing s)))).
  { intros upd. by rewrite status_at_map_at_eq, lookup_map_at_eq, Hs. }
  destruct (executeStep_run act index cur oracle st Hact); simpl;
    rewrite ?H1, ?H2; simpl; auto.
Qed.

Lemma statuses_of_cons j st states a :
  status_at j st = Some a → statuses_of j (st :: states) = a :: statuses_of j states.
Proof. intros Ha. unfold statuses_of. simpl. by rewrite Ha. Qed.

Lemma runAnalysis_loop_length act cur m i st oracle :
  length (final (exec (for_await (seq i m) (λ i, executeStep act i cur)) oracle st))
  = length st.
Proof.
  revert i st oracle. induction m as [|m IH]; intros i st oracle; [done|].
  cbn [seq for_await]. rewrite exec_bind.
  destruct (returned (exec (executeStep act i cur) oracle st)); simpl.
  - by rewrite IH, executeStep_final_length.
  - apply executeStep_final_length.
Qed.

(** C1: a step created by [runAnalysis] starts [pending]; on every update
    of the run its status stays or moves along
    [pending → analyzing → done|error]; it ends [done] when its call
    resolves and [error] when the call rejects; and one execution of a
    step shows [analyzing] before the call and [done] or [error] after its
    settlement, in no other order. *)
Theorem C1_status_lifecycle act clock cs oracle st0 i :
  i < length cs →
  let r := exec (runAnalysis act clock (Some cs)) oracle st0 in
  let h := statuses_of i (states_of (events r)) in
  head h = Some pending ∧
  lifecycle h = true ∧
  length h = length (states_of (events r)) ∧
  (act ≠ [] → returned r = Some () →
   ∃ a, status_at i (final r) = Some a ∧ settled a = true) ∧
  (act ≠ [] → is_Some (call_arguments act (initial_steps clock cs !! i)) →
   status_at i (final r) =
     Some (status_after (oracle !! i) (bool_decide (i = length oracle)))) ∧
  (∀ index cur oracle' st s, act ≠ [] → st !! index = Some s →
   let obs := omap (observe index)
                (events (exec (executeStep act index cur) oracle' st)) in
   obs = [ObsStatus analyzing; ObsCall; ObsResolved; ObsStatus done] ∨
   obs = [ObsStatus analyzing; ObsCall; ObsRejected; ObsStatus error] ∨
   obs = [ObsStatus analyzing; ObsCall] ∨
   obs = [ObsStatus analyzing; ObsStatus error]).
Proof.
  intros Hi r h.
  assert (Hcs : cs ≠ []) by (intros ->; simpl in Hi; lia).
  pose proof (status_at_initial_steps clock cs i Hi) as Hpend.
  assert (Hsome : is_Some (initial_steps clock cs !! i)).
  { apply lookup_lt_is_Some. by rewrite length_initial_steps. }
  subst h r. rewrite exec_runAnalysis by done.
  set (init := initial_steps clock cs) in *.
  set (loop := exec _ oracle init).
  cbn [emit events final returned]. rewrite states_of_app.
  change (states_of [EvSteps init]) with [init].
  destruct (chain_follows i init (states_of (events loop)) pending Hpend) as [Hf Hl].
  { by apply runAnalysis_loop_moves. }
  change ([init] ++ states_of (events loop)) with (init :: states_of (events loop)).
  rewrite (statuses_of_cons _ _ _ _ Hpend). cbn [head lifecycle length].
  rewrite Hf, Hl. split_and!; [done|done|done| | |].
  - intros Hact Hret.
    destruct (runAnalysis_loop_serial act init (length cs) 0 init oracle Hact)
      as [_ Hprog]; [apply progress_initial_steps|].
    specialize (Hprog Hret).
    assert (is_Some (status_at i (final loop))) as [a Ha].
    { apply status_at_is_Some, lookup_lt_is_Some. subst loop.
      rewrite runAnalysis_loop_length. unfold init.
      by rewrite length_initial_steps. }
    exists a. split; [done|]. by apply (Hprog i a Ha).
  - intros Hact [c Hc].
    destruct (call_arguments_Some _ _ _ Hc) as (sample & cols & s & Hsa & Hco & Hs & ->).
    destruct (runAnalysis_loop_calls act init sample cols (length cs) 0 init oracle
                Hact Hsa Hco) as (_ & Hfin & _).
    { unfold init. by rewrite length_initial_steps. }
    unfold status_at. fold loop in Hfin. rewrite Hfin, Hs. simpl. f_equal.
    rewrite Nat.sub_0_r. case_decide as Hd.
    + destruct (oracle !! i) as [[res|]|] eqn:Ho; simpl; [done|done|].
      apply lookup_ge_None in Ho. rewrite bool_decide_true by lia. done.
    + rewrite lookup_ge_None_2 by lia. simpl. rewrite bool_decide_false by lia.
      unfold init in Hs. rewrite lookup_initial_steps in Hs.
      destruct (cs !! i); by simplify_eq/=.
  - intros. by eapply executeStep_observed.
Qed.


Lemma C1_status_lifecycle_witness :
  0 < length sample_steps ∧
  lifecycle (statuses_of 0 (states_of (events
    (exec (runAnalysis (activeSheets sample_state) sample_clock (Some sample_steps))
          [Resolved sample_result; Rejected] [])))) = true.
Proof.
  assert (H : 0 < length sample_steps) by (simpl; lia).
  split; [exact H|].
  exact (proj1 (proj2 (C1_status_lifecycle (activeSheets sample_state) sample_clock
                         sample_steps [Resolved sample_result; Rejected] [] 0 H))).
Defined.

(** ** Serial execution of the steps *)

Lemma runAnalysis_call_order act clock cs oracle st0 :
  ∃ k, (λ c, (arg_title c, arg_description c)) <$>
         calls_of (events (exec (runAnalysis act clock (Some cs)) oracle st0))
       = take k ((λ s, (title s, description s)) <$> initial_steps clock cs).
Proof.
  destruct (decide (cs = [])) as [->|Hcs]; [by exists 0|].
  rewrite exec_runAnalysis by done. cbn [emit events]. rewrite calls_of_app.
  change (calls_of [EvSteps _]) with (@nil AnalyzeCall). rewrite app_nil_l.
  destruct act as [|a act].
  { rewrite for_await_empty. by exists 0. }
  set (act' := a :: act).
  destruct (call_arguments_cases act') as [Hnone|(sample & cols & Hsa & Hco)].
  - destruct (runAnalysis_loop_throws act' (initial_steps clock cs) (length cs) 0
                (initial_steps clock cs) oracle ltac:(done) Hnone) as (-> & _).
    by exists 0.
  - assert (Hlen : 0 + length cs ≤ length (initial_steps clock cs)).
    { by rewrite length_initial_steps. }
    destruct (runAnalysis_loop_calls act' (initial_steps clock cs) sample cols
                (length cs) 0 (initial_steps clock cs) oracle
                ltac:(done) Hsa Hco Hlen) as (-> & _).
    exists (S (length oracle)).
    rewrite drop_0, (take_ge (initial_steps clock cs)) by (by rewrite length_initial_steps).
    by rewrite fmap_take, <- list_fmap_compose.
Qed.

(** C2: [runAnalysis] runs its steps one after the other in list order: in
    every step list it installs, a step has left [pending] only if all
    steps in front of it are settled ([done] or [error]), so at most one
    step is [analyzing]; and the calls it makes are those of the steps in
    list order. *)
Theorem C2_serial_execution act clock cs oracle st0 :
  let r := exec (runAnalysis act clock (Some cs)) oracle st0 in
  Forall (λ st, serial st ∧ one_analyzing st) (states_of (events r)) ∧
  ∃ k, (λ c, (arg_title c, arg_description c)) <$> calls_of (events r)
       = take k ((λ s, (title s, description s)) <$> initial_steps clock cs).
Proof.
  intros r. split; [|apply runAnalysis_call_order].
  subst r. destruct (decide (cs = [])) as [->|Hcs]; [constructor|].
  rewrite exec_runAnalysis by done. cbn [emit events]. rewrite states_of_app.
  pose proof (progress_initial_steps clock cs) as Hp.
  apply Forall_app. split.
  { apply Forall_cons_2; [|apply Forall_nil_2]. by apply (progress_serial 0). }
  destruct act as [|a act].
  { rewrite for_await_empty. constructor. }
  by apply runAnalysis_loop_serial.
Qed.


(** ** Re-running one step *)

Lemma findIndex_Some target l index :
  findIndex target l = Some index ↔
  ∃ s, l !! index = Some s ∧ id s = target ∧
       ∀ j s', l !! j = Some s' → j < index → id s' ≠ target.
Proof.
  unfold findIndex. rewrite fmap_Some. split.
  - intros ([i s] & (Hs & Hid & Hmin)%list_find_Some & ->). eauto.
  - intros (s & Hs & Hid & Hmin). exists (index, s). split; [|done].
    apply list_find_Some. eauto.
Qed.

Lemma findIndex_None target l :
  findIndex target l = None ↔ Forall (λ s, id s ≠ target) l.
Proof. unfold findIndex. by rewrite fmap_None, list_find_None. Qed.

Lemma findIndex_is_Some target l :
  is_Some (findIndex target l) ↔ ∃ s, s ∈ l ∧ id s = target.
Proof.
  split.
  - intros [index (s & Hs & Hid & _)%findIndex_Some].
    exists s. split; [|done]. by eapply list_elem_of_lookup_2.
  - intros (s & Hs & Hid). destruct (findIndex target l) eqn:Hf; [done|].
    apply findIndex_None in Hf. rewrite Forall_forall in Hf. by destruct (Hf s Hs).
Qed.

(** Every step list installed by [executeStep] differs from the one it
    starts in at most at [index]. *)
Lemma executeStep_frame act index cur oracle st :
  Forall (λ st', length st' = length st ∧ ∀ j, j ≠ index → st' !! j = st !! j)
    (final (exec (executeStep act index cur) oracle st)
       :: states_of (events (exec (executeStep act index cur) oracle st))).
Proof.
  apply executeStep_elim.
  { intros _. simpl. by repeat constructor. }
  intros r _ Hr.
  assert (H1 : ∀ upd, length (map_at index upd st) = length st ∧
                 ∀ j, j ≠ index → map_at index upd st !! j = st !! j).
  { intros upd. split; [apply length_map_at|]. intros. by apply lookup_map_at_ne. }
  assert (H2 : ∀ upd upd',
    length (map_at index upd' (map_at index upd st)) = length st ∧
    ∀ j, j ≠ index → map_at index upd' (map_at index upd st) !! j = st !! j).
  { intros upd upd'. split; [by rewrite !length_map_at|].
    intros. by rewrite !lookup_map_at_ne. }
  destruct Hr; simpl; repeat (apply Forall_cons_2); auto using Forall_nil_2.
Qed.

(** C3: re-running the step with the given id leaves every other step as
    it was, in the first update and in every update of the execution that
    follows; when no step has the id, nothing is updated at all. *)
Theorem C3_reanalyze_frame act steps target newTitle newDescription oracle :
  let r := exec (handleReAnalyzeStep act steps target newTitle newDescription)
             oracle steps in
  (∀ index, findIndex target steps = Some index →
     (∃ s, steps !! index = Some s ∧ id s = target) ∧
     Forall (λ st', length st' = length steps ∧
                    ∀ j, j ≠ index → st' !! j = steps !! j)
       (final r :: states_of (events r))) ∧
  (findIndex target steps = None → events r = [] ∧ final r = steps) ∧
  (is_Some (findIndex target steps) ↔ ∃ s, s ∈ steps ∧ id s = target).
Proof.
  intros r. subst r. unfold handleReAnalyzeStep. split_and!.
  - intros index Hf. rewrite Hf.
    split. { apply findIndex_Some in Hf as (s & ? & ? & _). eauto. }
    set (updated := alter (edit_step newTitle newDescription) index steps).
    assert (Hu : length updated = length steps ∧
                 ∀ j, j ≠ index → updated !! j = steps !! j).
    { split; [apply length_alter|]. intros. by apply list_lookup_alter_ne. }
    pose proof (executeStep_frame act index updated oracle updated) as Hfr.
    cbn [exec emit events final]. rewrite states_of_app.
    change (states_of [EvSteps updated]) with [updated].
    apply Forall_cons in Hfr as [Hfin Hst].
    assert (Himp : ∀ st', (length st' = length updated ∧
                           ∀ j, j ≠ index → st' !! j = updated !! j) →
                          length st' = length steps ∧
                          ∀ j, j ≠ index → st' !! j = steps !! j).
    { intros st' [Hl Hj]. destruct Hu as [Hul Huj]. split; [congruence|].
      intros j Hne. by rewrite Hj, Huj. }
    apply Forall_cons_2; [by apply Himp|].
    apply Forall_cons_2; [done|]. eapply Forall_impl; [exact Hst|done].
  - by intros ->.
  - apply findIndex_is_Some.
Qed.

Lemma C3_reanalyze_frame_witness :
  findIndex (step_id 1700000000000 1) sample_analyzed = Some 1 ∧
  final (exec (handleReAnalyzeStep (activeSheets sample_state) sample_analyzed
                 (step_id 1700000000000 1) (of_ascii "Trend") (of_ascii "by month"))
              [Rejected] sample_analyzed) !! 0 = sample_analyzed !! 0.
Proof.
  assert (Hf : findIndex (step_id 1700000000000 1) sample_analyzed = Some 1)
    by reflexivity.
  split; [exact Hf|].
  pose proof (proj1 (C3_reanalyze_frame (activeSheets sample_state) sample_analyzed
                       (step_id 1700000000000 1) (of_ascii "Trend")
                       (of_ascii "by month") [Rejected]) 1 Hf) as [_ H].
  apply Forall_cons in H as [[_ H] _]. apply H. lia.
Defined.


(** ** Nothing selected *)

Lemma activeSheets_no_selection st : selectedSheetsMap st = [] → activeSheets st = [].
Proof. intros Hm. unfold activeSheets. rewrite Hm. by destruct (fileDatas st). Qed.

Lemma lookup_fileDatas_None st : fileDatas st = None → activeSheets st = [].
Proof. intros Hf. unfold activeSheets. by rewrite Hf. Qed.

(** C9: with no active sheet [executeStep] returns at once and updates
    nothing; so [runAnalysis] leaves every step it created [pending], and
    [handleReAnalyzeStep] leaves the edited step [analyzing] with its old
    result, without a call and without anything left waiting. *)
Theorem C9_empty_selection :
  (∀ st, selectedSheetsMap st = [] → activeSheets st = []) ∧
  (∀ index cur oracle st,
     exec (executeStep [] index cur) oracle st =
       {| events := []; final := st; unused := oracle; returned := Some () |}) ∧
  (∀ clock cs oracle st0, cs ≠ [] →
     let r := exec (runAnalysis [] clock (Some cs)) oracle st0 in
     events r = [EvSteps (initial_steps clock cs)] ∧
     final r = initial_steps clock cs ∧
     length (final r) = length cs ∧
     Forall (λ s, status s = pending ∧ result s = None) (final r) ∧
     returned r = Some ()) ∧
  (∀ steps target newTitle newDescription oracle index s,
     findIndex target steps = Some index → steps !! index = Some s →
     let r := exec (handleReAnalyzeStep [] steps target newTitle newDescription)
                oracle steps in
     events r = [EvSteps (final r)] ∧
     final r !! index =
       Some {| id := id s; title := newTitle; description := newDescription;
               status := analyzing; result := result s |} ∧
     returned r = Some ()) ∧
  (∀ c a, activeSheets (app c) = [] →
     (∃ clock cs, a = RunAnalysis clock cs) ∨
     (∃ target newTitle newDescription, a = ReAnalyzeStep target newTitle newDescription) →
     tasks (perform a c) = tasks c).
Proof.
  split_and!.
  - apply activeSheets_no_selection.
  - apply executeStep_empty.
  - intros clock cs oracle st0 Hcs r. subst r.
    rewrite exec_runAnalysis, for_await_empty by done. simpl.
    split_and!; [done|done|apply length_initial_steps| |done].
    apply Forall_lookup. intros i s. rewrite lookup_initial_steps.
    destruct (cs !! i); by intros [= <-].
  - intros steps target newTitle newDescription oracle index s Hf Hs r. subst r.
    unfold handleReAnalyzeStep. rewrite Hf. simpl.
    split_and!; [done| |done].
    by rewrite list_lookup_alter_eq, Hs.
  - intros c a Hact [(clock & cs & ->)|(target & newTitle & newDescription & ->)];
      simpl; rewrite Hact.
    + assert (H : ∀ st, (run_to_await (runAnalysis [] clock cs) st).2 = None).
      { intros st. unfold runAnalysis. destruct cs as [cs|]; [|done].
        destruct (decide (length cs = 0)); [done|]. simpl.
        generalize (initial_steps clock cs) at 2 3.
        generalize (seq 0 (length (initial_steps clock cs))).
        intros l. induction l as [|i l IH]; [done|]. intros st'. apply IH. }
      unfold start. rewrite H. simpl. apply app_nil_r.
    + unfold start, handleReAnalyzeStep.
      destruct (findIndex target (stepAnalyses (app c))); simpl; apply app_nil_r.
Qed.

Lemma C9_empty_selection_witness :
  sample_steps ≠ [] ∧
  final (exec (runAnalysis [] sample_clock (Some sample_steps))
           [Resolved sample_result] [])
  = initial_steps sample_clock sample_steps.
Proof.
  assert (H : sample_steps ≠ []) by discriminate.
  split; [exact H|].
  exact (proj1 (proj2 (proj1 (proj2 (proj2 C9_empty_selection))
                         sample_clock sample_steps [Resolved sample_result] [] H))).
Defined.


(** ** Results come from the service *)

(** Case analysis on membership in an explicit list. *)
Ltac elem_cases H :=
  repeat (apply elem_of_cons in H as [->|H]); try by apply elem_of_nil in H.

Lemma executeStep_done act index cur oracle st st' j s :
  st' ∈ states_of (events (exec (executeStep act index cur) oracle st)) →
  st' !! j = Some s → status s = done →
  st !! j = Some s ∨
  (j = index ∧ ∃ res rest step sample cols,
     oracle = Resolved res :: rest ∧ result s = Some res ∧
     cur !! index = Some step ∧
     combinedSample act = Some sample ∧ combinedColumns act = Some cols ∧
     events (exec (executeStep act index cur) oracle st) =
       [EvSteps (map_at index (with_status analyzing) st);
        EvCall (make_call sample cols step); EvSettle (Resolved res); EvSteps st']).
Proof.
  apply executeStep_elim; [by intros _ ?%elem_of_nil|].
  intros r _ Hr Hin Hs Hdone.
  destruct (decide (j = index)) as [->|Hne].
  - right. split; [done|].
    assert (H1 : ∀ upd, map_at index upd (map_at index (with_status analyzing) st)
                          !! index = Some s →
                 ∃ s0, s = upd (with_status analyzing s0)).
    { intros upd. rewrite !lookup_map_at_eq. destruct (st !! index); [|done].
      intros [= <-]. eauto. }
    assert (H0 : map_at index (with_status analyzing) st !! index ≠ Some s).
    { rewrite lookup_map_at_eq. destruct (st !! index); [|done].
      intros [= <-]. done. }
    destruct Hr as [Hc|c Hc ->|c res rest Hc ->|c rest Hc ->]; simpl in *;
      elem_cases Hin.
    all: try done.
    all: try (apply H1 in Hs as [s0 ->]; done).
    destruct (call_arguments_Some _ _ _ Hc) as (sample & cols & step & ? & ? & ? & ->).
    pose proof Hs as Hs'. apply H1 in Hs' as [s0 ->].
    by eexists res, rest, step, sample, cols.
  - left. rewrite <- Hs.
    destruct Hr; simpl in *;
      elem_cases Hin.
    all: by rewrite ?lookup_map_at_ne.
Qed.

Lemma executeStep_results act index cur oracle st st' j s :
  st' ∈ states_of (events (exec (executeStep act index cur) oracle st)) →
  st' !! j = Some s →
  ∃ s0, st !! j = Some s0 ∧
    (result s = result s0 ∨ ∃ res, Resolved res ∈ oracle ∧ result s = Some res).
Proof.
  apply executeStep_elim; [by intros _ ?%elem_of_nil|].
  intros r _ Hr Hin Hs.
  assert (H1 : ∀ upd, map_at index upd st !! j = Some s → (∀ x, result (upd x) = result x) →
               ∃ s0, st !! j = Some s0 ∧ result s = result s0).
  { intros upd. rewrite lookup_map_at. destruct (st !! j) as [s0|]; [|done].
    simpl. intros [= <-] Hupd. exists s0. split; [done|]. case_decide; by rewrite ?Hupd. }
  assert (H2 : ∀ upd, map_at index upd (map_at index (with_status analyzing) st) !! j = Some s →
               (∀ x, result (upd x) = result x) →
               ∃ s0, st !! j = Some s0 ∧ result s = result s0).
  { intros upd. rewrite !lookup_map_at. destruct (st !! j) as [s0|]; [|done].
    simpl. intros [= <-] Hupd. exists s0. split; [done|]. repeat case_decide; by rewrite ?Hupd. }
  destruct Hr as [Hc|c Hc ->|c res rest Hc ->|c rest Hc ->]; simpl in *;
    elem_cases Hin.
  all: try (edestruct H1 as (s0 & ? & ?); [exact Hs|done|]; by eauto).
  all: try (edestruct H2 as (s0 & ? & ?); [exact Hs|done|]; by eauto).
  revert Hs. rewrite !lookup_map_at. destruct (st !! j) as [s0|]; [|done].
  simpl. intros [= <-]. exists s0. split; [done|].
  repeat case_decide; simpl; auto.
  right. exists res. split; [apply elem_of_cons; by left|done].
Qed.


Lemma initial_steps_pending clock cs j s :
  initial_steps clock cs !! j = Some s → status s = pending ∧ result s = None.
Proof.
  rewrite lookup_initial_steps. destruct (cs !! j); [|done]. by intros [= <-].
Qed.

Lemma runAnalysis_done act clock cs oracle st0 j s :
  cs ≠ [] →
  let r := exec (runAnalysis act clock (Some cs)) oracle st0 in
  final r !! j = Some s → status s = done →
  ∃ res sample cols s0,
    oracle !! j = Some (Resolved res) ∧ result s = Some res ∧
    initial_steps clock cs !! j = Some s0 ∧
    id s = id s0 ∧ title s = title s0 ∧ description s = description s0 ∧
    combinedSample act = Some sample ∧ combinedColumns act = Some cols ∧
    calls_of (events r) !! j = Some (make_call sample cols s0).
Proof.
  intros Hcs r. subst r. rewrite exec_runAnalysis by done.
  cbn [emit events final]. rewrite calls_of_app.
  change (calls_of [EvSteps _]) with (@nil AnalyzeCall). rewrite app_nil_l.
  set (init := initial_steps clock cs).
  destruct act as [|a act].
  { rewrite for_await_empty. simpl. intros Hs Hd.
    apply initial_steps_pending in Hs as [Hs _]. congruence. }
  set (act' := a :: act).
  destruct (call_arguments_cases act') as [Hnone|(sample & cols & Hsa & Hco)].
  - destruct (runAnalysis_loop_throws act' init (length cs) 0 init oracle
                ltac:(done) Hnone) as (_ & Hfin & _).
    rewrite Hfin. destruct (init !! j) as [s0|] eqn:Hs0; [|done].
    apply initial_steps_pending in Hs0 as [Hs0 _].
    simpl. intros [= <-]. case_decide; simpl; congruence.
  - assert (Hlen : 0 + length cs ≤ length init).
    { unfold init. by rewrite length_initial_steps. }
    destruct (runAnalysis_loop_calls act' init sample cols (length cs) 0 init oracle
                ltac:(done) Hsa Hco Hlen) as (Hcalls & Hfin & _).
    rewrite Hfin, Hcalls. destruct (init !! j) as [s0|] eqn:Hs0; [|done].
    pose proof (initial_steps_pending _ _ _ _ Hs0) as [Hp _].
    simpl. rewrite Nat.sub_0_r. intros [= <-].
    case_decide as Hd; [|congruence].
    destruct (oracle !! j) as [[res|]|] eqn:Ho; simpl; [|done|done].
    intros _. exists res, sample, cols, s0. split_and!; try done.
    apply lookup_lt_Some in Ho.
    rewrite lookup_take_lt by lia.
    rewrite drop_0, take_ge by (unfold init; by rewrite length_initial_steps).
    by rewrite list_lookup_fmap, Hs0.
Qed.

(** C7: a step is set to [done] only by the update that follows the
    settlement of its own call; its result is then the value the call
    resolved with, and the call was made with the step's title and
    description, the combined sample and the combined columns.  No update
    installs a result that the service did not return. *)
Theorem C7_done_result_is_returned_value act :
  (∀ index cur oracle st st' j s,
     st' ∈ states_of (events (exec (executeStep act index cur) oracle st)) →
     st' !! j = Some s → status s = done →
     st !! j = Some s ∨
     (j = index ∧ ∃ res rest step sample cols,
        oracle = Resolved res :: rest ∧ result s = Some res ∧
        cur !! index = Some step ∧
        combinedSample act = Some sample ∧ combinedColumns act = Some cols ∧
        events (exec (executeStep act index cur) oracle st) =
          [EvSteps (map_at index (with_status analyzing) st);
           EvCall (make_call sample cols step); EvSettle (Resolved res);
           EvSteps st'])) ∧
  (∀ index cur oracle st st' j s,
     st' ∈ states_of (events (exec (executeStep act index cur) oracle st)) →
     st' !! j = Some s →
     ∃ s0, st !! j = Some s0 ∧
       (result s = result s0 ∨ ∃ res, Resolved res ∈ oracle ∧ result s = Some res)) ∧
  (∀ clock cs oracle st0 j s, cs ≠ [] →
     let r := exec (runAnalysis act clock (Some cs)) oracle st0 in
     final r !! j = Some s → status s = done →
     ∃ res sample cols s0,
       oracle !! j = Some (Resolved res) ∧ result s = Some res ∧
       initial_steps clock cs !! j = Some s0 ∧
       id s = id s0 ∧ title s = title s0 ∧ description s = description s0 ∧
       combinedSample act = Some sample ∧ combinedColumns act = Some cols ∧
       calls_of (events r) !! j = Some (make_call sample cols s0)).
Proof.
  split_and!.
  - apply executeStep_done.
  - apply executeStep_results.
  - apply runAnalysis_done.
Qed.

Lemma C7_done_result_is_returned_value_witness :
  sample_steps ≠ [] ∧
  (∃ s, sample_analyzed !! 1 = Some s ∧ status s = done ∧
        result s = Some sample_result).
Proof.
  assert (H : sample_steps ≠ []) by discriminate.
  split; [exact H|].
  assert (Hs : ∃ s, sample_analyzed !! 1 = Some s ∧ status s = done).
  { eexists. split; reflexivity. }
  destruct Hs as (s & Hs & Hd). exists s. split_and!; [done|done|].
  destruct (proj2 (proj2 (C7_done_result_is_returned_value (activeSheets sample_state)))
              sample_clock sample_steps [Resolved sample_result; Resolved sample_result]
              [] 1 s H Hs Hd) as (res & ? & ? & ? & Ho & Hr & _).
  by injection Ho as <-.
Defined.


(** ** What updates change *)

Lemma map_at_execution_update_at index upd prev :
  (∀ s, id (upd s) = id s ∧ title (upd s) = title s ∧
        description (upd s) = description s ∧
        (result (upd s) = result s ∨ status (upd s) = done)) →
  execution_update_at index prev (map_at index upd prev).
Proof.
  intros Hupd. split; [|intros; by apply lookup_map_at_ne].
  apply Forall2_same_length_lookup_2; [by rewrite length_map_at|].
  intros j s s' Hs. rewrite lookup_map_at, Hs. simpl. intros [= <-].
  case_decide; [apply Hupd|auto].
Qed.

Lemma executeStep_execution_update_at act index cur oracle st :
  chain (execution_update_at index) st
    (states_of (events (exec (executeStep act index cur) oracle st))).
Proof.
  apply executeStep_elim; [done|]. intros r _ Hr.
  destruct Hr; simpl; split_and!; try done;
    apply map_at_execution_update_at; intros s; simpl; auto.
Qed.

Lemma executeStep_execution_update act index cur oracle st :
  chain execution_update st
    (states_of (events (exec (executeStep act index cur) oracle st))).
Proof.
  eapply chain_impl; [|apply executeStep_execution_update_at].
  intros prev next H. by exists index.
Qed.

Lemma half_even i : (2 * i) / 2 = i ∧ Nat.even (2 * i) = true.
Proof.
  split; [|apply Nat.even_even].
  rewrite Nat.mul_comm. by apply Nat.div_mul.
Qed.

Lemma half_odd i : S (2 * i) / 2 = i ∧ Nat.even (S (2 * i)) = false.
Proof.
  split.
  - symmetry. apply (Nat.div_unique _ _ _ 1); lia.
  - replace (S (2 * i)) with (2 * i + 1) by lia. apply Nat.even_odd.
Qed.

(** The two updates of the execution of step [i] are the updates [2 i]
    and [2 i + 1] of the loop. *)
Lemma run_update_first i st :
  i < length st → run_update (2 * i) st (map_at i (with_status analyzing) st).
Proof.
  intros Hi. destruct (half_even i) as [Hh He]. unfold run_update.
  rewrite Hh, He. split.
  - apply map_at_execution_update_at. intros s; simpl; auto.
  - rewrite status_at_map_at_eq.
    by destruct (lookup_lt_is_Some_2 st i Hi) as [s ->].
Qed.

Lemma run_update_second i upd st :
  i < length st →
  (∀ s, id (upd s) = id s ∧ title (upd s) = title s ∧
        description (upd s) = description s ∧
        (result (upd s) = result s ∨ status (upd s) = done)) →
  run_update (S (2 * i)) (map_at i (with_status analyzing) st)
    (map_at i upd (map_at i (with_status analyzing) st)).
Proof.
  intros Hi Hupd. destruct (half_odd i) as [Hh He]. unfold run_update.
  rewrite Hh, He. split.
  - by apply map_at_execution_update_at.
  - rewrite status_at_map_at_eq.
    by destruct (lookup_lt_is_Some_2 st i Hi) as [s ->].
Qed.

Lemma runAnalysis_loop_run_update act cur m i st oracle :
  i + m ≤ length st →
  chain_from run_update (2 * i) st
    (states_of (events (exec (for_await (seq i m) (λ i, executeStep act i cur)) oracle st))).
Proof.
  destruct act as [|a act]; [by rewrite for_await_empty|].
  revert i st oracle. induction m as [|m IH]; intros i st oracle Hlen; [done|].
  cbn [seq for_await]. rewrite exec_bind.
  assert (Hnext : ∀ upd rest,
    (∀ s, id (upd s) = id s ∧ title (upd s) = title s ∧
          description (upd s) = description s ∧
          (result (upd s) = result s ∨ status (upd s) = done)) →
    chain_from run_update (2 * i) st
      (map_at i (with_status analyzing) st
       :: map_at i upd (map_at i (with_status analyzing) st)
       :: states_of (events (exec (for_await (seq (S i) m)
                                     (λ i, executeStep (a :: act) i cur)) rest
                       (map_at i upd (map_at i (with_status analyzing) st)))))).
  { intros upd rest Hupd. cbn [chain_from]. split; [|split].
    - apply run_update_first. lia.
    - apply run_update_second; [lia|done].
    - replace (S (S (2 * i))) with (2 * S i) by lia.
      apply IH. rewrite !length_map_at. lia. }
  destruct (executeStep_run (a :: act) i cur oracle st ltac:(done))
    as [_|c Hc ->|c res rest Hc ->|c rest Hc ->];
    cbn [returned events final unused emit].
  - rewrite states_of_app. apply Hnext. intros s; simpl; auto.
  - split; [|done]. apply run_update_first. lia.
  - rewrite states_of_app. apply Hnext. intros s; simpl; auto.
  - rewrite states_of_app. apply Hnext. intros s; simpl; auto.
Qed.

Lemma runAnalysis_loop_execution_update act cur m i st oracle :
  chain execution_update st
    (states_of (events (exec (for_await (seq i m) (λ i, executeStep act i cur)) oracle st))).
Proof.
  eapply (for_await_chain execution_update (λ _ _, True) _ (i + m)); [|done|done].
  intros k st' oracle' _ _. split; [apply executeStep_execution_update|done].
Qed.

Lemma execution_update_same_ids prev next :
  execution_update prev next → same_ids prev next.
Proof.
  intros (index & H & _). split; [symmetry; by eapply Forall2_length|].
  induction H as [|s s' prev next (Hid & _) _ IH]; [done|].
  rewrite !fmap_cons. by rewrite IH, Hid.
Qed.

Lemma alter_edit_update newTitle newDescription index steps :
  edit_update index steps (alter (edit_step newTitle newDescription) index steps).
Proof.
  split.
  - apply Forall2_same_length_lookup_2; [by rewrite length_alter|].
    intros j s s' Hs. destruct (decide (index = j)) as [->|Hne].
    + rewrite list_lookup_alter_eq, Hs. by intros [= <-].
    + rewrite list_lookup_alter_ne, Hs by done. by intros [= <-].
  - intros j Hne. by apply list_lookup_alter_ne.
Qed.

Lemma edit_update_same_ids index prev next :
  edit_update index prev next → same_ids prev next.
Proof.
  intros [H _]. split; [symmetry; by eapply Forall2_length|].
  induction H as [|s s' prev next (Hid & _) _ IH]; [done|].
  rewrite !fmap_cons. by rewrite IH, Hid.
Qed.

Lemma states_handleReAnalyzeStep act steps target newTitle newDescription oracle index :
  findIndex target steps = Some index →
  states_of (events (exec (handleReAnalyzeStep act steps target newTitle newDescription)
                       oracle steps))
  = alter (edit_step newTitle newDescription) index steps
      :: states_of (events (exec (executeStep act index
            (alter (edit_step newTitle newDescription) index steps)) oracle
            (alter (edit_step newTitle newDescription) index steps))).
Proof. intros Hf. unfold handleReAnalyzeStep. by rewrite Hf. Qed.

Lemma states_runAnalysis act clock cs oracle st0 :
  cs ≠ [] →
  states_of (events (exec (runAnalysis act clock (Some cs)) oracle st0))
  = initial_steps clock cs
      :: states_of (events (exec (for_await (seq 0 (length cs))
            (λ i, executeStep act i (initial_steps clock cs)))
            oracle (initial_steps clock cs))).
Proof. intros Hcs. by rewrite exec_runAnalysis. Qed.

(** The claim of C5 fails: an execution that resolves installs a result,
    and a re-run replaces title and description. *)
Lemma C5_status_not_only_mutation :
  ¬ chain only_status_changes sample_pending
      (states_of (events (exec (executeStep (activeSheets sample_state) 0 sample_pending)
                            [Resolved sample_result] sample_pending))) ∧
  ¬ chain only_status_changes sample_analyzed
      (states_of (events (exec (handleReAnalyzeStep (activeSheets sample_state)
                                  sample_analyzed (step_id 1700000000000 1)
                                  (of_ascii "Trend by month") (of_ascii "orders per month"))
                            [Rejected] sample_analyzed))).
Proof.
  split.
  - intros (_ & H & _). apply Forall2_cons_1 in H as [(_ & _ & _ & H) _].
    discriminate H.
  - intros (H & _). apply Forall2_cons_1 in H as [_ H].
    apply Forall2_cons_1 in H as [(_ & _ & H & _) _]. discriminate H.
Qed.

(** C5 (amended): no update changes the id of an existing step.  The
    updates of [executeStep (index, _)] also keep title and description,
    leave every step but the one at [index] as it is, and change the result
    of that one only in the update that sets the status [done].  In the loop
    of [runAnalysis] update [k] is such an update of step [k / 2], the step
    then being executed.  The first update of [handleReAnalyzeStep] keeps
    every result and every step but the edited one, whose title and
    description it replaces; the following ones are updates of the
    execution of that step. *)
Theorem C5_updates_keep_identity :
  (∀ act index cur oracle st,
     chain (execution_update_at index) st
       (states_of (events (exec (executeStep act index cur) oracle st)))) ∧
  (∀ act clock cs oracle st0, cs ≠ [] →
     ∃ rest,
       states_of (events (exec (runAnalysis act clock (Some cs)) oracle st0))
         = initial_steps clock cs :: rest ∧
       chain_from run_update 0 (initial_steps clock cs) rest) ∧
  (∀ act steps target newTitle newDescription oracle index,
     findIndex target steps = Some index →
     ∃ updated rest,
       states_of (events (exec (handleReAnalyzeStep act steps target newTitle
                                  newDescription) oracle steps))
         = updated :: rest ∧
       edit_update index steps updated ∧
       (∀ s, steps !! index = Some s →
          updated !! index =
            Some {| id := id s; title := newTitle; description := newDescription;
                    status := analyzing; result := result s |}) ∧
       chain (execution_update_at index) updated rest).
Proof.
  split_and!.
  - apply executeStep_execution_update_at.
  - intros act clock cs oracle st0 Hcs. eexists. split; [by apply states_runAnalysis|].
    apply (runAnalysis_loop_run_update act (initial_steps clock cs) (length cs) 0).
    by rewrite length_initial_steps.
  - intros act steps target newTitle newDescription oracle index Hf.
    eexists _, _. split_and!; [by apply states_handleReAnalyzeStep| | |].
    + apply alter_edit_update.
    + intros s Hs. by rewrite list_lookup_alter_eq, Hs.
    + apply executeStep_execution_update_at.
Qed.

Lemma C5_updates_keep_identity_witness :
  findIndex (step_id 1700000000000 1) sample_analyzed = Some 1 ∧
  ∃ updated rest,
    states_of (events (exec (handleReAnalyzeStep (activeSheets sample_state)
                               sample_analyzed (step_id 1700000000000 1)
                               (of_ascii "Trend by month") (of_ascii "orders per month"))
                         [Rejected] sample_analyzed))
      = updated :: rest ∧
    edit_update 1 sample_analyzed updated ∧
    chain (execution_update_at 1) updated rest.
Proof.
  assert (Hf : findIndex (step_id 1700000000000 1) sample_analyzed = Some 1)
    by reflexivity.
  split; [exact Hf|].
  destruct (proj2 (proj2 C5_updates_keep_identity) (activeSheets sample_state)
              sample_analyzed (step_id 1700000000000 1) (of_ascii "Trend by month")
              (of_ascii "orders per month") [Rejected] 1 Hf)
    as (updated & rest & Heq & Hedit & _ & Hchain).
  exists updated, rest. split_and!; assumption.
Defined.


(** ** The step list is never shortened *)

Lemma same_ids_refl st : same_ids st st.
Proof. by split. Qed.

Lemma same_ids_trans st1 st2 st3 :
  same_ids st1 st2 → same_ids st2 st3 → same_ids st1 st3.
Proof. intros [??] [??]. split; congruence. Qed.

Lemma preserving_bind (m : Async ()) (f : () → Async ()) :
  preserving m → (∀ a, preserving (f a)) → preserving (bind m f).
Proof.
  intros Hm Hf. induction m as [a|v k IH|g k IH|c k IH]; simpl in *.
  - apply Hf.
  - done.
  - destruct Hm. split; auto.
  - intros o. by apply IH.
Qed.

Lemma preserving_executeStep act index cur : preserving (executeStep act index cur).
Proof.
  assert (H : ∀ upd, (∀ s, id (upd s) = id s) →
                ∀ prev, same_ids prev (map_at index upd prev)).
  { intros upd Hupd prev. by apply map_at_same_ids. }
  unfold executeStep. destruct (decide (length act = 0)); [done|].
  destruct (call_arguments act (cur !! index)); simpl.
  - split; [by apply H|]. intros [res|]; simpl; split; try done; by apply H.
  - split; [by apply H|]. split; [by apply H|done].
Qed.

Lemma preserving_for_await l (body : nat → Async ()) :
  (∀ i, preserving (body i)) → preserving (for_await l body).
Proof.
  intros Hbody. induction l as [|i l IH]; [done|].
  simpl. by apply preserving_bind.
Qed.

Lemma run_to_await_preserving p st :
  preserving p →
  same_ids st (run_to_await p st).1 ∧
  ∀ k, (run_to_await p st).2 = Some k → ∀ o, preserving (k o).
Proof.
  revert st. induction p as [a|v k IH|g k IH|c k IH]; intros st Hp; simpl in *.
  - split; [apply same_ids_refl|done].
  - done.
  - destruct Hp as [Hg Hk]. destruct (IH (g st) Hk) as [Hs Hc].
    split; [|done]. eapply same_ids_trans; [apply Hg|done].
  - split; [apply same_ids_refl|]. by intros ? [= <-].
Qed.

Lemma start_preserving p c :
  preserving p → waiting_preserve c →
  same_ids (stepAnalyses (app c)) (stepAnalyses (app (start p c))) ∧
  waiting_preserve (start p c).
Proof.
  intros Hp Hc. destruct (run_to_await_preserving p (stepAnalyses (app c)) Hp) as [Hs Hk].
  split; [done|]. unfold waiting_preserve, start. simpl.
  apply Forall_app. split; [done|].
  destruct (run_to_await p (stepAnalyses (app c))).2 as [k|]; simpl; [|constructor].
  apply Forall_cons_2; [by apply Hk|constructor].
Qed.

(** A handler that first installs the list [v] and then only updates in
    place. *)
Lemma start_SetSteps v p c :
  preserving p → waiting_preserve c →
  same_ids v (stepAnalyses (app (start (SetSteps v p) c))) ∧
  waiting_preserve (start (SetSteps v p) c).
Proof.
  intros Hp Hc. destruct (run_to_await_preserving p v Hp) as [Hs Hk].
  split; [done|]. unfold waiting_preserve, start. simpl.
  apply Forall_app. split; [done|].
  destruct (run_to_await p v).2 as [k|]; simpl; [|constructor].
  apply Forall_cons_2; [by apply Hk|constructor].
Qed.


Lemma run_actions_snoc l a : run_actions (l ++ [a]) = perform a (run_actions l).
Proof. unfold run_actions. by rewrite foldl_app. Qed.

Lemma preserving_runAnalysis_loop act cur l :
  preserving (for_await l (λ i, executeStep act i cur)).
Proof. apply preserving_for_await. intros. apply preserving_executeStep. Qed.

Lemma runAnalysis_cases act clock customSteps :
  runAnalysis act clock customSteps = Return () ∨
  ∃ cs, customSteps = Some cs ∧ cs ≠ [] ∧
    runAnalysis act clock customSteps =
      SetSteps (initial_steps clock cs)
        (for_await (seq 0 (length (initial_steps clock cs)))
           (λ i, executeStep act i (initial_steps clock cs))).
Proof.
  unfold runAnalysis. destruct customSteps as [cs|]; [|by left].
  destruct (decide (length cs = 0)); [by left|].
  right. exists cs. split_and!; [done| |done]. by intros ->.
Qed.

Lemma start_Return c : start (Return ()) c = c.
Proof.
  unfold start. simpl. rewrite app_nil_r. by destruct c as [[] ?].
Qed.

(** One transition of the component either keeps length and ids of the
    step list, or installs the empty list (upload, reset), or installs the
    steps built by [runAnalysis]. *)
Lemma perform_steps a c :
  waiting_preserve c →
  (same_ids (stepAnalyses (app c)) (stepAnalyses (app (perform a c))) ∨
   (((∃ d, a = DataLoaded d) ∨ a = Reset) ∧ stepAnalyses (app (perform a c)) = []) ∨
   (∃ clock cs, a = RunAnalysis clock (Some cs) ∧ cs ≠ [] ∧
      same_ids (initial_steps clock cs) (stepAnalyses (app (perform a c))))) ∧
  waiting_preserve (perform a c).
Proof.
  intros Hc. destruct a as [d|f s|f| | |clock cs|target t d|i o]; simpl.
  - split; [|done]. right. left. split; [|done]. left. by exists d.
  - split; [|done]. left. apply same_ids_refl.
  - unfold handleToggleFile.
    destruct (fileDatas (app c)) as [fds|]; [|split; [left; apply same_ids_refl|done]].
    destruct (fds !! f) as [file|]; [|split; [left; apply same_ids_refl|done]].
    case_decide; (split; [left; apply same_ids_refl|done]).
  - split; [|done]. right. left. by split; [right|].
  - split; [|done]. left. apply same_ids_refl.
  - destruct (runAnalysis_cases (activeSheets (app c)) clock cs)
      as [->|(cs' & -> & Hne & ->)].
    + rewrite start_Return. split; [left; apply same_ids_refl|done].
    + destruct (start_SetSteps (initial_steps clock cs')
                  (for_await (seq 0 (length (initial_steps clock cs')))
                     (λ i, executeStep (activeSheets (app c)) i (initial_steps clock cs')))
                  c (preserving_runAnalysis_loop _ _ _) Hc) as [Hs Hw].
      split; [|done]. right. right. by exists clock, cs'.
  - unfold handleReAnalyzeStep.
    destruct (findIndex target (stepAnalyses (app c))) as [index|].
    + destruct (start_SetSteps (alter (edit_step t d) index (stepAnalyses (app c)))
                  (executeStep (activeSheets (app c)) index
                     (alter (edit_step t d) index (stepAnalyses (app c))))
                  c (preserving_executeStep _ _ _) Hc) as [Hs Hw].
      split; [|done]. left. eapply same_ids_trans; [|exact Hs].
      eapply edit_update_same_ids, alter_edit_update.
    + rewrite start_Return. split; [left; apply same_ids_refl|done].
  - destruct (tasks c !! i) as [k|] eqn:Hk; [|split; [left; apply same_ids_refl|done]].
    assert (Hko : preserving (k o)).
    { unfold waiting_preserve in Hc. rewrite Forall_lookup in Hc. by eapply Hc. }
    assert (Hc' : waiting_preserve {| app := app c; tasks := delete i (tasks c) |}).
    { unfold waiting_preserve in *. simpl. by apply Forall_delete. }
    destruct (start_preserving (k o) _ Hko Hc') as [Hs Hw].
    split; [by left|done].
Qed.

Lemma reachable_waiting c : reachable c → waiting_preserve c.
Proof.
  intros [l ->]. induction l as [|a l IH] using rev_ind.
  - constructor.
  - rewrite run_actions_snoc. by apply perform_steps.
Qed.

Lemma executeStep_same_ids act index cur oracle st :
  chain same_ids st (states_of (events (exec (executeStep act index cur) oracle st))).
Proof.
  eapply chain_impl; [apply execution_update_same_ids|].
  apply executeStep_execution_update.
Qed.

(** C6: no operation deletes a single step.  Every transition of the
    component keeps the length of the step list and the id at every
    position, or installs the empty list ([handleDataLoaded], [reset]), or
    installs the list built by [runAnalysis]; and within a handler every
    update after the installation keeps length and ids. *)
Theorem C6_steps_never_deleted :
  (∀ c a, reachable c →
     same_ids (stepAnalyses (app c)) (stepAnalyses (app (perform a c))) ∨
     (((∃ d, a = DataLoaded d) ∨ a = Reset) ∧ stepAnalyses (app (perform a c)) = []) ∨
     (∃ clock cs, a = RunAnalysis clock (Some cs) ∧ cs ≠ [] ∧
        same_ids (initial_steps clock cs) (stepAnalyses (app (perform a c))))) ∧
  (∀ act index cur oracle st,
     chain same_ids st (states_of (events (exec (executeStep act index cur) oracle st)))) ∧
  (∀ act steps target newTitle newDescription oracle,
     chain same_ids steps
       (states_of (events (exec (handleReAnalyzeStep act steps target newTitle
                                   newDescription) oracle steps)))) ∧
  (∀ act clock cs oracle st0, cs ≠ [] →
     ∃ rest,
       states_of (events (exec (runAnalysis act clock (Some cs)) oracle st0))
         = initial_steps clock cs :: rest ∧
       chain same_ids (initial_steps clock cs) rest) ∧
  (∀ d st, stepAnalyses (handleDataLoaded d st) = []) ∧
  (∀ st, stepAnalyses (reset st) = []).
Proof.
  split_and!; [| | | |done|done].
  - intros c a Hc. by apply perform_steps, reachable_waiting.
  - apply executeStep_same_ids.
  - intros act steps target newTitle newDescription oracle.
    destruct (findIndex target steps) as [index|] eqn:Hf.
    + rewrite (states_handleReAnalyzeStep _ _ _ _ _ _ _ Hf). split.
      * eapply edit_update_same_ids, alter_edit_update.
      * apply executeStep_same_ids.
    + unfold handleReAnalyzeStep. by rewrite Hf.
  - intros act clock cs oracle st0 Hcs. eexists.
    split; [by apply states_runAnalysis|].
    eapply chain_impl; [apply execution_update_same_ids|].
    apply runAnalysis_loop_execution_update.
Qed.

Lemma C6_steps_never_deleted_witness :
  reachable (run_actions [DataLoaded [sample_file];
                          RunAnalysis sample_clock (Some sample_steps)]) ∧
  same_ids
    (stepAnalyses (app (run_actions [DataLoaded [sample_file];
                                     RunAnalysis sample_clock (Some sample_steps)])))
    (stepAnalyses (app (run_actions [DataLoaded [sample_file];
                                     RunAnalysis sample_clock (Some sample_steps);
                                     Settle 0 (Resolved sample_result)]))).
Proof.
  assert (H : reachable (run_actions [DataLoaded [sample_file];
                                      RunAnalysis sample_clock (Some sample_steps)])).
  { by eexists. }
  split; [exact H|].
  destruct (proj1 C6_steps_never_deleted _ (Settle 0 (Resolved sample_result)) H)
    as [Hs|[[[[d Hd]|Hd] _]|(clock & cs & Hd & _)]];
    [exact Hs|discriminate Hd..].
Defined.


(** ** The sheet selection *)

Lemma map_set_Forall (P : nat * list nat → Prop) k v m :
  P (k, v) → Forall P m → Forall P (map_set k v m).
Proof.
  intros Hkv Hm. induction Hm as [|[k' v'] m Hx Hm IH]; simpl.
  - by repeat constructor.
  - case_decide; constructor; auto.
Qed.

Lemma new_Map_Forall (P : nat * list nat → Prop) m :
  Forall P m → Forall P (new_Map m).
Proof.
  unfold new_Map. intros Hm.
  assert (Hacc : Forall P (@nil (nat * list nat))) by constructor.
  revert Hacc. generalize (@nil (nat * list nat)) as acc.
  induction Hm as [|[k v] m Hx Hm IH]; intros acc Hacc; simpl; [done|].
  apply IH. by apply map_set_Forall.
Qed.

Lemma map_delete_Forall (P : nat * list nat → Prop) k m :
  Forall P m → Forall P (map_delete k m).
Proof.
  intros Hm. unfold map_delete. apply Forall_forall.
  intros e [_ He]%list_elem_of_filter. rewrite Forall_forall in Hm. auto.
Qed.

Lemma new_Set_nonempty (l : list nat) : l ≠ [] → new_Set l ≠ [].
Proof.
  unfold new_Set. destruct l as [|x l]; [done|]. intros _. simpl.
  assert (Hacc : set_add x [] ≠ []) by done.
  revert Hacc. generalize (set_add x []) as acc.
  induction l as [|y l IH]; intros acc Hacc; simpl; [done|].
  apply IH. unfold set_add. destruct (set_has y acc); [done|].
  by destruct acc.
Qed.

Lemma handleToggleSheet_nonempty fileIdx sheetIdx st :
  nonempty_sets (selectedSheetsMap st) →
  nonempty_sets (selectedSheetsMap (handleToggleSheet fileIdx sheetIdx st)).
Proof.
  intros Hm. unfold handleToggleSheet, nonempty_sets in *. simpl.
  case_decide as Hsize.
  - by apply map_delete_Forall, new_Map_Forall.
  - apply map_set_Forall; [|by apply new_Map_Forall].
    simpl. intros Heq. apply Hsize. unfold set_size. by rewrite Heq.
Qed.

Lemma handleDataLoaded_nonempty dataArray st :
  nonempty_sets (selectedSheetsMap (handleDataLoaded dataArray st)).
Proof.
  unfold handleDataLoaded, nonempty_sets. simpl.
  case_decide; by repeat constructor.
Qed.

Lemma reset_nonempty st : nonempty_sets (selectedSheetsMap (reset st)).
Proof. constructor. Qed.

Lemma handleToggleFile_fileDatas fileIdx st st' :
  handleToggleFile fileIdx st = Some st' → fileDatas st' = fileDatas st.
Proof.
  unfold handleToggleFile. destruct (fileDatas st) as [fds|] eqn:Hfds.
  - destruct (fds !! fileIdx); [|done]. case_decide; intros [= <-]; by simpl.
  - by intros [= <-].
Qed.

(** [handleToggleFile] keeps the invariant for a file that has sheets. *)
Lemma handleToggleFile_nonempty fileIdx st st' :
  selection_ok st → handleToggleFile fileIdx st = Some st' → selection_ok st'.
Proof.
  intros [Hm Hf] Ht. split.
  2:{ by rewrite (handleToggleFile_fileDatas _ _ _ Ht). }
  revert Ht. unfold handleToggleFile.
  destruct (fileDatas st) as [fds|]; [|by intros [= <-]].
  destruct (fds !! fileIdx) as [file|] eqn:Hfile; [|done].
  assert (Hfile' : sheets file ≠ []).
  { specialize (Hf fds eq_refl). rewrite Forall_lookup in Hf. by eapply Hf. }
  case_decide; intros [= <-]; unfold nonempty_sets in *; simpl.
  - by apply map_delete_Forall, new_Map_Forall.
  - apply map_set_Forall; [|by apply new_Map_Forall].
    simpl. apply new_Set_nonempty. by destruct (sheets file).
Qed.

(** When every uploaded file has a sheet, every selected file keeps a
    non-empty set of selected sheets in all reachable states. *)
Lemma selection_invariant l :
  Forall loads_sheets l → selection_ok (app (run_actions l)).
Proof.
  induction l as [|a l IH] using rev_ind; intros Hl.
  - split; [constructor|done].
  - apply Forall_app in Hl as [Hl Ha%Forall_inv].
    specialize (IH Hl). rewrite run_actions_snoc.
    set (c := run_actions l) in *.
    destruct a as [d|f s|f| | |clock cs|target t d|i o]; simpl in *.
    + split; [apply handleDataLoaded_nonempty|]. by intros ? [= <-].
    + destruct IH as [Hm Hf]. split; [by apply handleToggleSheet_nonempty|done].
    + destruct (handleToggleFile f (app c)) as [st'|] eqn:Ht; [|done].
      by eapply handleToggleFile_nonempty.
    + split; [apply reset_nonempty|done].
    + done.
    + done.
    + done.
    + by destruct (tasks c !! i).
Qed.

(** C4 fails on a workbook without sheets: [handleDataLoaded] selects
    sheet 0 of file 0 although the file has none, and [handleToggleFile]
    then replaces that selection by the empty set of all its sheets. *)
Theorem C4_empty_file_breaks_selection :
  reachable (run_actions [DataLoaded [empty_file]; ToggleFile 0]) ∧
  selectedSheetsMap (app (run_actions [DataLoaded [empty_file]; ToggleFile 0]))
    = [(0, [])] ∧
  ¬ nonempty_sets
      (selectedSheetsMap (app (run_actions [DataLoaded [empty_file]; ToggleFile 0]))).
Proof.
  split_and!; [by eexists|done|].
  intros H. apply Forall_inv in H. done.
Qed.


(** ** The data sent to the service *)

Lemma flatMap_sheets_Some {B : Type} (f : SheetData → list B) act r :
  flatMap_sheets f act = Some r →
  ∃ shs, act = Some <$> shs ∧ r = concat (f <$> shs).
Proof.
  revert r. induction act as [|[s|] act IH]; intros r; simpl.
  - intros [= <-]. by exists [].
  - destruct (flatMap_sheets f act) as [r'|]; [|done]. simpl. intros [= <-].
    destruct (IH r' eq_refl) as (shs & -> & ->). by exists (s :: shs).
  - done.
Qed.

Lemma new_Set_acc (acc l : list jsstring) :
  foldl (λ s x, set_add x s) acc l
  = acc ++ filter (λ y, y ∉ acc) (first_occurrences l).
Proof.
  revert acc. induction l as [|x l IH]; intros acc; simpl.
  - by rewrite filter_nil, app_nil_r.
  - rewrite IH. unfold set_add, set_has. case_bool_decide as Hx.
    + rewrite filter_cons_False by tauto. f_equal.
      rewrite list_filter_filter. apply list_filter_iff. intros y. simpl.
      split; [|tauto]. intros Hy. split; [done|]. by intros ->.
    + rewrite filter_cons_True by done. rewrite <- app_assoc. simpl. do 2 f_equal.
      rewrite list_filter_filter. apply list_filter_iff. intros y. simpl.
      rewrite not_elem_of_app, list_elem_of_singleton. tauto.
Qed.

Lemma new_Set_first_occurrences (l : list jsstring) :
  new_Set l = first_occurrences l.
Proof.
  unfold new_Set. rewrite new_Set_acc. simpl.
  induction (first_occurrences l) as [|x k IH]; [done|].
  rewrite filter_cons_True by apply not_elem_of_nil. by rewrite IH.
Qed.

Lemma elem_of_first_occurrences l x : x ∈ first_occurrences l ↔ x ∈ l.
Proof.
  induction l as [|y l IH]; simpl; [done|].
  rewrite !elem_of_cons, list_elem_of_filter, IH.
  destruct (decide (x = y)); tauto.
Qed.

Lemma NoDup_first_occurrences l : NoDup (first_occurrences l).
Proof.
  induction l as [|y l IH]; simpl; [constructor|].
  apply NoDup_cons. split; [|by apply NoDup_filter].
  rewrite list_elem_of_filter. tauto.
Qed.

Lemma activeSheets_selected st fds :
  fileDatas st = Some fds →
  activeSheets st = selected_sheets fds (selectedSheetsMap st).
Proof.
  intros Hf. unfold activeSheets, selected_sheets, selection_order. rewrite Hf.
  induction (selectedSheetsMap st) as [|[fIdx indices] m IH]; [done|].
  simpl flat_map. rewrite IH. clear IH.
  change ((fIdx, indices) :: m) with ([(fIdx, indices)] ++ m).
  rewrite bind_app, omap_app. f_equal.
  simpl. rewrite app_nil_r.
  induction indices as [|sIdx indices IH]; [done|].
  simpl. rewrite IH. by destruct (fds !! fIdx).
Qed.

Lemma length_concat_take {B : Type} (n : nat) (ls : list (list B)) :
  length (concat (take n <$> ls)) ≤ n * length ls.
Proof.
  induction ls as [|l ls IH]; [simpl; lia|].
  rewrite fmap_cons. cbn [concat length].
  rewrite length_app, length_take, Nat.mul_succ_r. lia.
Qed.

Lemma elem_of_concat_fmap {B C : Type} (f : B → list C) (l : list B) x :
  x ∈ concat (f <$> l) ↔ ∃ y, y ∈ l ∧ x ∈ f y.
Proof.
  induction l as [|y l IH]; simpl.
  - split; [by intros ?%elem_of_nil|]. by intros (? & ?%elem_of_nil & _).
  - rewrite elem_of_app, IH. split.
    + intros [?|(z & ? & ?)]; [exists y|exists z]; rewrite elem_of_cons; auto.
    + intros (z & [->|?]%elem_of_cons & ?); eauto.
Qed.

(** C8: a call made by [executeStep] carries, for the selected sheets in
    the iteration order of the selection map and of its sets, the first 50
    rows of each sheet, concatenated, and the column names of these sheets
    without duplicates in order of first occurrence. *)
Theorem C8_call_data st index cur oracle steps c :
  c ∈ calls_of (events (exec (executeStep (activeSheets st) index cur) oracle steps)) →
  ∃ fds shs,
    fileDatas st = Some fds ∧
    Some <$> shs = selected_sheets fds (selectedSheetsMap st) ∧
    arg_sample c = concat ((λ sh, take 50 (rows sh)) <$> shs) ∧
    length (arg_sample c) ≤ 50 * length shs ∧
    arg_columns c = first_occurrences (concat (columns <$> shs)) ∧
    NoDup (arg_columns c) ∧
    (∀ x, x ∈ arg_columns c ↔ ∃ sh, sh ∈ shs ∧ x ∈ columns sh).
Proof.
  apply executeStep_elim; [by intros _ ?%elem_of_nil|].
  intros r Hact Hr Hin.
  assert (Hc : call_arguments (activeSheets st) (cur !! index) = Some c).
  { destruct Hr; simpl in Hin;
      elem_cases Hin.
    all: done. }
  destruct (call_arguments_Some _ _ _ Hc) as (sample & cols & s & Hsa & Hco & _ & ->).
  destruct (fileDatas st) as [fds|] eqn:Hf;
    [|by rewrite lookup_fileDatas_None in Hact].
  apply flatMap_sheets_Some in Hsa as (shs & Hshs & ->).
  unfold combinedColumns in Hco.
  destruct (flatMap_sheets columns (activeSheets st)) as [allcols|] eqn:Hall; [|done].
  apply flatMap_sheets_Some in Hall as (shs' & Hshs' & ->).
  assert (shs' = shs) as ->.
  { rewrite Hshs in Hshs'. by apply (inj (fmap Some)) in Hshs'. }
  simpl in Hco. injection Hco as <-.
  exists fds, shs. rewrite <- (activeSheets_selected st fds Hf), Hshs.
  rewrite new_Set_first_occurrences. simpl.
  split_and!; [done|done|done| |done|apply NoDup_first_occurrences|].
  - rewrite (list_fmap_compose rows (take 50)).
    etrans; [apply length_concat_take|]. by rewrite length_fmap.
  - intros x. rewrite elem_of_first_occurrences. apply elem_of_concat_fmap.
Qed.

Lemma C8_call_data_witness :
  sample_call ∈ calls_of (events (exec (executeStep (activeSheets sample_state) 0
                                          sample_pending) [] sample_pending)) ∧
  ∃ fds shs,
    fileDatas sample_state = Some fds ∧
    arg_sample sample_call = concat ((λ sh, take 50 (rows sh)) <$> shs).
Proof.
  assert (H : sample_call ∈ calls_of (events (exec
                (executeStep (activeSheets sample_state) 0 sample_pending)
                [] sample_pending))).
  { apply list_elem_of_here. }
  split; [exact H|].
  destruct (C8_call_data sample_state 0 sample_pending [] sample_pending sample_call H)
    as (fds & shs & Hf & _ & Hs & _).
  by exists fds, shs.
Defined.


(** ** Parsing of the custom steps *)

Lemma split_nonempty sep s : split sep s ≠ [].
Proof.
  destruct s as [|c s]; simpl; [done|].
  destruct (c =? sep)%N; [done|]. by destruct (split sep s).
Qed.

Lemma join_cons sep p ps :
  ps ≠ [] → join sep (p :: ps) = p ++ sep :: join sep ps.
Proof. by destruct ps. Qed.

Lemma join_split sep s : join sep (split sep s) = s.
Proof.
  induction s as [|c s IH]; [done|]. simpl.
  destruct (c =? sep)%N eqn:Hc.
  - apply N.eqb_eq in Hc as ->.
    rewrite join_cons by apply split_nonempty. by rewrite IH.
  - destruct (split sep s) as [|p ps] eqn:Hs; [by destruct (split_nonempty sep s)|].
    rewrite <- IH. by destruct ps.
Qed.

Lemma split_colon s :
  ∃ rest, split colon s = before_first_colon s :: rest ∧
          join colon rest = after_first_colon s.
Proof.
  induction s as [|c s (rest & IH1 & IH2)]; simpl.
  - by exists [].
  - destruct (c =? colon)%N.
    + exists (split colon s). split; [done|]. apply join_split.
    + rewrite IH1. by exists rest.
Qed.

Lemma trimStart_spec s :
  ∃ pre, s = pre ++ trimStart s ∧ Forall (λ c, is_white_space c = true) pre ∧
         ∀ c, head (trimStart s) = Some c → is_white_space c = false.
Proof.
  induction s as [|c s (pre & Hs & Hpre & Hhd)]; simpl.
  - by exists [].
  - destruct (is_white_space c) eqn:Hc.
    + exists (c :: pre). split_and!; [by rewrite <- app_comm_cons, <- Hs|by constructor|done].
    + exists []. split_and!; [done|constructor|]. by intros ? [= <-].
Qed.

Lemma trimEnd_spec s :
  ∃ suf, s = trimEnd s ++ suf ∧ Forall (λ c, is_white_space c = true) suf ∧
         ∀ c, last (trimEnd s) = Some c → is_white_space c = false.
Proof.
  unfold trimEnd. destruct (trimStart_spec (reverse s)) as (pre & Hs & Hpre & Hhd).
  exists (reverse pre). split_and!.
  - rewrite <- reverse_app, <- Hs. by rewrite reverse_involutive.
  - by apply Forall_reverse.
  - intros c. rewrite last_reverse. apply Hhd.
Qed.

Lemma trimEnd_head s c :
  head (trimEnd s) = Some c → head s = Some c.
Proof.
  destruct (trimEnd_spec s) as (suf & Hs & _). rewrite Hs at 2.
  by destruct (trimEnd s).
Qed.

Lemma trim_spec s :
  ∃ pre suf, s = pre ++ trim s ++ suf ∧
    Forall (λ c, is_white_space c = true) pre ∧
    Forall (λ c, is_white_space c = true) suf ∧
    trimmed (trim s).
Proof.
  unfold trim.
  destruct (trimStart_spec s) as (pre & Hs & Hpre & Hhd).
  destruct (trimEnd_spec (trimStart s)) as (suf & Hs' & Hsuf & Hlast).
  exists pre, suf. split_and!; [by rewrite <- Hs'|done|done|].
  split; [|done]. intros c Hc. by apply Hhd, trimEnd_head.
Qed.

(** C10: [runAnalysis] reads each custom step as [Title: Description]. The
    title is the trimmed text before the first [':'], or [分析步骤 N] with [N]
    the position counted from 1 when that is empty; the description is the
    trimmed text after the first [':'], later colons kept, or the whole
    string when that is empty. *)
Theorem C10_step_parsing :
  (∀ now idx s,
     title (parse_step now idx s) =
       (if decide (trim (before_first_colon s) = [])
        then [20998; 26512; 27493; 39588; 32]%N ++ nat_to_string (idx + 1)
        else trim (before_first_colon s)) ∧
     description (parse_step now idx s) =
       (if decide (trim (after_first_colon s) = [])
        then s else trim (after_first_colon s)) ∧
     status (parse_step now idx s) = pending ∧
     result (parse_step now idx s) = None) ∧
  (∀ act clock cs oracle st0 i s,
     cs !! i = Some s →
     head (states_of (events (exec (runAnalysis act clock (Some cs)) oracle st0)))
       ≫= (.!! i) = Some (parse_step (clock i) i s)) ∧
  (∀ s, ∃ pre suf, s = pre ++ trim s ++ suf ∧
     Forall (λ c, is_white_space c = true) pre ∧
     Forall (λ c, is_white_space c = true) suf ∧
     trimmed (trim s)) ∧
  (∀ s, (∀ c, c ∈ s → c ≠ colon) →
     before_first_colon s = s ∧ after_first_colon s = []) ∧
  (∀ a b, (∀ c, c ∈ a → c ≠ colon) →
     before_first_colon (a ++ colon :: b) = a ∧
     after_first_colon (a ++ colon :: b) = b).
Proof.
  split_and!.
  - intros now idx s. unfold parse_step.
    destruct (split_colon s) as (rest & -> & Hrest). simpl.
    rewrite drop_0, Hrest. split_and!; [|by destruct (trim (after_first_colon s))|done|done].
    by destruct (trim (before_first_colon s)).
  - intros act clock cs oracle st0 i s Hs.
    rewrite states_runAnalysis by (by intros ->). simpl.
    by rewrite lookup_initial_steps, Hs.
  - apply trim_spec.
  - intros s Hs. induction s as [|c s IH]; [done|]. simpl.
    destruct (c =? colon)%N eqn:Hc.
    + apply N.eqb_eq in Hc. destruct (Hs c); [by left|done].
    + destruct IH as [-> ->]; [|done]. intros c' ?. apply Hs. by right.
  - intros a b Ha. induction a as [|c a IH]; simpl.
    + done.
    + destruct (c =? colon)%N eqn:Hc.
      * apply N.eqb_eq in Hc. destruct (Ha c); [by left|done].
      * destruct IH as [-> ->]; [|done]. intros c' ?. apply Ha. by right.
Qed.

Lemma C10_step_parsing_witness :
  sample_steps !! 1 = Some (of_ascii "Trend: orders over time") ∧
  head (states_of (events (exec (runAnalysis [] sample_clock (Some sample_steps))
                             [] []))) ≫= (.!! 1)
  = Some (parse_step (sample_clock 1) 1 (of_ascii "Trend: orders over time")).
Proof.
  assert (H : sample_steps !! 1 = Some (of_ascii "Trend: orders over time"))
    by reflexivity.
  split; [exact H|].
  exact (proj1 (proj2 C10_step_parsing) [] sample_clock sample_steps [] [] 1 _ H).
Defined.

Example parse_title_and_description :
  parse_step 7 0 (of_ascii " Sales : by region: north ") =
    {| id := of_ascii "step-7-0"; title := of_ascii "Sales";
       description := of_ascii "by region: north";
       status := pending; result := None |}.
Proof. reflexivity. Qed.

Example parse_default_title :
  title (parse_step 7 2 (of_ascii " : x")) = [20998; 26512; 27493; 39588; 32; 51]%N.
Proof. reflexivity. Qed.

Example parse_without_colon :
  parse_step 7 0 (of_ascii "no colon") =
    {| id := of_ascii "step-7-0"; title := of_ascii "no colon";
       description := of_ascii "no colon";
       status := pending; result := None |}.
Proof. reflexivity. Qed.


(** * Further properties of the component *)

(** ** Resizing the panels *)

Lemma handleMouseMove_fields x w l :
  leftWidth (handleMouseMove x w l) =
    (if isResizingLeft l && (150 <? x) && (x <? 600) then x else leftWidth l)%Z ∧
  rightWidth (handleMouseMove x w l) =
    (if isResizingRight l && (250 <? w - x) && (w - x <? 800)
     then w - x else rightWidth l)%Z ∧
  isResizingLeft (handleMouseMove x w l) = isResizingLeft l ∧
  isResizingRight (handleMouseMove x w l) = isResizingRight l ∧
  cursor (handleMouseMove x w l) = cursor l ∧
  userSelect (handleMouseMove x w l) = userSelect l.
Proof.
  destruct l as [lw rw [] [] cu us]; unfold handleMouseMove; simpl;
    destruct (150 <? x)%Z, (x <? 600)%Z; simpl;
    destruct (250 <? w - x)%Z, (w - x <? 800)%Z; done.
Qed.

Lemma handleMouseMove_range x w l :
  widths_in_range l → widths_in_range (handleMouseMove x w l).
Proof.
  unfold widths_in_range. intros Hl.
  destruct (handleMouseMove_fields x w l) as (-> & -> & _).
  destruct (isResizingLeft l), (isResizingRight l); simpl;
    repeat (match goal with
            | |- context [(?a <? ?b)%Z] => destruct (Z.ltb_spec a b)
            end; simpl); lia.
Qed.

Lemma mouse_range e l : widths_in_range l → widths_in_range (mouse e l).
Proof. destruct e; simpl; [apply handleMouseMove_range|done..]. Qed.

Lemma mouse_flags_cursor e l :
  (isResizingLeft l || isResizingRight l = true → cursor l = of_ascii "col-resize") →
  isResizingLeft (mouse e l) || isResizingRight (mouse e l) = true →
  cursor (mouse e l) = of_ascii "col-resize".
Proof.
  destruct e as [x w| | |]; simpl; try done.
  by destruct (handleMouseMove_fields x w l) as (_ & _ & -> & -> & -> & _).
Qed.

(** X1: whatever the mouse does, the left panel stays strictly between 150
    and 600 pixels wide and the right panel strictly between 250 and 800;
    and while a drag handle is held the body cursor is [col-resize]. *)
Theorem X1_widths_stay_in_range cursor0 userSelect0 es :
  let l := mouse_events es (initialLayout cursor0 userSelect0) in
  widths_in_range l ∧
  (isResizingLeft l || isResizingRight l = true → cursor l = of_ascii "col-resize").
Proof.
  simpl. unfold mouse_events.
  induction es as [|e es IH] using rev_ind.
  - split; [unfold widths_in_range; simpl; lia|done].
  - rewrite foldl_app. simpl. destruct IH as [IH1 IH2].
    split; [by apply mouse_range|by apply mouse_flags_cursor].
Qed.

Lemma moves_after_mouse_up es l :
  forallb is_move es = true →
  isResizingLeft l = false → isResizingRight l = false →
  mouse_events es l = l.
Proof.
  unfold mouse_events. revert l.
  induction es as [|e es IH]; intros l Hes Hl Hr; [done|].
  simpl in Hes. apply andb_true_iff in Hes as [He Hes].
  destruct e as [x w| | |]; try done. simpl.
  assert (handleMouseMove x w l = l) as ->.
  { unfold handleMouseMove. by rewrite Hl, Hr. }
  by apply IH.
Qed.

(** X2: releasing the mouse ends every drag: after [handleMouseUp] mouse
    moves, however many and wherever, change nothing, the widths are those
    at the release, and cursor and text selection of the body are reset. *)
Theorem X2_mouse_up_ends_resizing es l :
  forallb is_move es = true →
  mouse_events es (handleMouseUp l) = handleMouseUp l ∧
  leftWidth (mouse_events es (handleMouseUp l)) = leftWidth l ∧
  rightWidth (mouse_events es (handleMouseUp l)) = rightWidth l ∧
  cursor (mouse_events es (handleMouseUp l)) = [] ∧
  userSelect (mouse_events es (handleMouseUp l)) = [].
Proof.
  intros Hes. rewrite (moves_after_mouse_up es (handleMouseUp l)) by done. done.
Qed.

Lemma X2_mouse_up_ends_resizing_witness :
  forallb is_move [MouseMove 500 1600; MouseMove 1300 1600] = true ∧
  leftWidth (mouse_events [MouseMove 500 1600; MouseMove 1300 1600]
               (handleMouseUp (mouse_events [MouseDownLeft; MouseMove 420 1600]
                                 (initialLayout [] [])))) = 420%Z.
Proof.
  assert (H : forallb is_move [MouseMove 500 1600; MouseMove 1300 1600] = true)
    by reflexivity.
  split; [exact H|].
  exact (proj1 (proj2 (X2_mouse_up_ends_resizing _
           (mouse_events [MouseDownLeft; MouseMove 420 1600] (initialLayout [] [])) H))).
Defined.


(** ** Maps and sets *)

Lemma set_has_true (x : nat) s : set_has x s = true ↔ x ∈ s.
Proof. unfold set_has. apply bool_decide_eq_true. Qed.

Lemma elem_of_set_add (x y : nat) s : y ∈ set_add x s ↔ y = x ∨ y ∈ s.
Proof.
  unfold set_add, set_has. case_bool_decide.
  - split; [auto|]. by intros [->|?].
  - rewrite elem_of_app, list_elem_of_singleton. tauto.
Qed.

Lemma elem_of_set_delete (x y : nat) s : y ∈ set_delete x s ↔ y ≠ x ∧ y ∈ s.
Proof. unfold set_delete. by rewrite list_elem_of_filter. Qed.

Lemma NoDup_set_add (x : nat) s : NoDup s → NoDup (set_add x s).
Proof.
  intros Hs. unfold set_add, set_has. case_bool_decide; [done|].
  apply NoDup_app. split_and!; [done| |apply NoDup_singleton].
  intros y Hy ->%list_elem_of_singleton. done.
Qed.

Lemma NoDup_set_delete (x : nat) s : NoDup s → NoDup (set_delete x s).
Proof. intros. unfold set_delete. by apply NoDup_filter. Qed.

Lemma new_Set_foldl_id (acc l : list nat) :
  NoDup (acc ++ l) → foldl (λ s x, set_add x s) acc l = acc ++ l.
Proof.
  revert acc. induction l as [|x l IH]; intros acc Hnd; simpl.
  - by rewrite app_nil_r.
  - assert (Hx : x ∉ acc).
    { apply NoDup_app in Hnd as (_ & Hd & _). intros Hin.
      apply (Hd x Hin). by left. }
    unfold set_add at 2, set_has. rewrite bool_decide_false by done.
    rewrite IH; [by rewrite <- app_assoc|]. by rewrite <- app_assoc.
Qed.

(** Copying a set gives the same set. *)
Lemma new_Set_id (s : list nat) : NoDup s → new_Set s = s.
Proof. intros Hs. unfold new_Set. by rewrite new_Set_foldl_id. Qed.

Lemma map_get_None k (m : JsMap) : map_get k m = None ↔ k ∉ m.*1.
Proof.
  induction m as [|[k' v] m IH]; simpl.
  - split; [intros _; apply not_elem_of_nil|done].
  - case_decide as Hk; [subst|].
    + split; [done|]. intros []. by left.
    + rewrite IH, not_elem_of_cons. split; [by auto|tauto].
Qed.

Lemma map_set_fresh k v (m : JsMap) : k ∉ m.*1 → map_set k v m = m ++ [(k, v)].
Proof.
  induction m as [|[k' v'] m IH]; simpl; [done|].
  rewrite not_elem_of_cons. intros [Hne Hk].
  rewrite decide_False by done. by rewrite IH.
Qed.

Lemma new_Map_foldl_id (acc m : JsMap) :
  NoDup (acc ++ m).*1 → foldl (λ acc e, map_set e.1 e.2 acc) acc m = acc ++ m.
Proof.
  revert acc. induction m as [|[k v] m IH]; intros acc Hnd; simpl.
  - by rewrite app_nil_r.
  - assert (Hk : k ∉ acc.*1).
    { rewrite fmap_app in Hnd. apply NoDup_app in Hnd as (_ & Hd & _).
      intros Hin. apply (Hd k Hin). by left. }
    rewrite map_set_fresh by done.
    rewrite IH; [by rewrite <- app_assoc|]. by rewrite <- app_assoc.
Qed.

(** Copying a map gives the same map. *)
Lemma new_Map_id (m : JsMap) : NoDup m.*1 → new_Map m = m.
Proof. intros Hm. unfold new_Map. by rewrite new_Map_foldl_id. Qed.

Lemma map_get_map_set k k' v (m : JsMap) :
  map_get k' (map_set k v m) = if decide (k' = k) then Some v else map_get k' m.
Proof.
  induction m as [|[k0 v0] m IH]; simpl.
  - destruct (decide (k = k')), (decide (k' = k)); congruence.
  - destruct (decide (k0 = k)) as [->|Hne]; simpl.
    + destruct (decide (k = k')), (decide (k' = k)); congruence.
    + rewrite IH. destruct (decide (k0 = k')), (decide (k' = k)); congruence.
Qed.

Lemma map_get_map_delete k k' (m : JsMap) :
  map_get k' (map_delete k m) = if decide (k' = k) then None else map_get k' m.
Proof.
  unfold map_delete. induction m as [|[k0 v0] m IH]; simpl.
  - by destruct (decide (k' = k)).
  - rewrite filter_cons. simpl. destruct (decide (k0 ≠ k)) as [Hne|Heq]; simpl.
    + rewrite IH. destruct (decide (k0 = k')), (decide (k' = k)); congruence.
    + assert (k0 = k) as -> by (by destruct (decide (k0 = k))).
      rewrite IH. destruct (decide (k = k')), (decide (k' = k)); congruence.
Qed.

Lemma map_set_keys k v (m : JsMap) :
  (map_set k v m).*1 = if decide (k ∈ m.*1) then m.*1 else m.*1 ++ [k].
Proof.
  induction m as [|[k0 v0] m IH]; csimpl; [done|].
  destruct (decide (k0 = k)) as [->|Hne]; csimpl.
  - rewrite decide_True by (by left). done.
  - rewrite IH. destruct (decide (k ∈ m.*1)) as [Hin|Hin].
    + rewrite decide_True by (by right). done.
    + rewrite decide_False; [done|]. rewrite not_elem_of_cons. auto.
Qed.

Lemma wf_map_set k v (m : JsMap) : NoDup v → wf_map m → wf_map (map_set k v m).
Proof.
  intros Hv [Hk Hs]. split.
  - rewrite map_set_keys. case_decide; [done|].
    apply NoDup_app. split_and!; [done| |apply NoDup_singleton].
    intros y Hy ->%list_elem_of_singleton. done.
  - by apply map_set_Forall.
Qed.

Lemma wf_map_delete k (m : JsMap) : wf_map m → wf_map (map_delete k m).
Proof.
  intros [Hk Hs]. split; [|by apply map_delete_Forall].
  unfold map_delete. clear Hs. induction m as [|[k0 v0] m IH]; [done|].
  rewrite fmap_cons in Hk. apply NoDup_cons in Hk as [Hk0 Hk].
  rewrite filter_cons. simpl.
  case_decide; [|by apply IH]. rewrite fmap_cons. simpl.
  apply NoDup_cons. split; [|by apply IH].
  intros Hin. apply Hk0. apply list_elem_of_fmap_1 in Hin as (e & Heq & He).
  apply list_elem_of_filter in He as [_ He]. simpl. rewrite Heq.
  by apply list_elem_of_fmap_2.
Qed.

Lemma map_get_wf k v (m : JsMap) : wf_map m → map_get k m = Some v → NoDup v.
Proof.
  intros [_ Hs]. induction Hs as [|[k0 v0] m Hv Hs IH]; simpl; [done|].
  case_decide; [by intros [= <-]|done].
Qed.


(** ** Toggling sheets and files *)

Lemma set_has_toggle (s s' : nat) cur :
  set_has s' (if set_has s cur then set_delete s cur else set_add s cur)
  = xorb (set_has s' cur) (bool_decide (s' = s)).
Proof.
  apply eq_true_iff_eq. rewrite set_has_true.
  destruct (set_has s cur) eqn:Hs.
  - apply set_has_true in Hs. rewrite elem_of_set_delete.
    case_bool_decide as Heq; [subst|].
    + rewrite (proj2 (set_has_true s cur) Hs). simpl. split; [tauto|done].
    + rewrite xorb_false_r, set_has_true. tauto.
  - assert (Hs' : s ∉ cur) by (rewrite <- set_has_true; by rewrite Hs).
    rewrite elem_of_set_add. case_bool_decide as Heq; [subst|].
    + rewrite Hs. simpl. tauto.
    + rewrite xorb_false_r, set_has_true. tauto.
Qed.

Lemma selected_cases (m : JsMap) f s :
  selected m f s = set_has s (default [] (map_get f m)).
Proof. unfold selected. by destruct (map_get f m). Qed.

Lemma handleToggleSheet_selected fileIdx sheetIdx st :
  wf_map (selectedSheetsMap st) →
  wf_map (selectedSheetsMap (handleToggleSheet fileIdx sheetIdx st)) ∧
  (∀ f s, selected (selectedSheetsMap (handleToggleSheet fileIdx sheetIdx st)) f s
          = xorb (selected (selectedSheetsMap st) f s)
                 (bool_decide (f = fileIdx ∧ s = sheetIdx))) ∧
  fileDatas (handleToggleSheet fileIdx sheetIdx st) = fileDatas st ∧
  stepAnalyses (handleToggleSheet fileIdx sheetIdx st) = stepAnalyses st.
Proof.
  intros Hwf. unfold handleToggleSheet. simpl.
  rewrite new_Map_id by apply Hwf.
  set (m := selectedSheetsMap st) in *.
  set (cur := default [] (map_get fileIdx m)).
  assert (Hcur : NoDup cur).
  { unfold cur. destruct (map_get fileIdx m) as [v|] eqn:Hv; simpl;
      [by eapply map_get_wf|constructor]. }
  rewrite new_Set_id by done.
  set (set1 := if set_has sheetIdx cur then set_delete sheetIdx cur
               else set_add sheetIdx cur).
  assert (Hset1 : NoDup set1).
  { unfold set1. destruct (set_has sheetIdx cur);
      [by apply NoDup_set_delete|by apply NoDup_set_add]. }
  assert (Hmem : ∀ s, set_has s set1 = xorb (set_has s cur) (bool_decide (s = sheetIdx))).
  { intros s. apply set_has_toggle. }
  split_and!; [| |done|done].
  - case_decide; [by apply wf_map_delete|by apply wf_map_set].
  - intros f s. unfold selected at 1. case_decide as Hsize.
    + rewrite map_get_map_delete.
      assert (set1 = []) as Hnil by (by destruct set1).
      destruct (decide (f = fileIdx)) as [->|Hne].
      * fold cur in Hmem. rewrite selected_cases. fold cur.
        specialize (Hmem s). rewrite Hnil in Hmem.
        destruct (decide (s = sheetIdx)) as [->|Hs].
        -- rewrite bool_decide_true in * by done.
           by destruct (set_has sheetIdx cur).
        -- rewrite bool_decide_false in * by tauto.
           by destruct (set_has s cur).
      * rewrite bool_decide_false by tauto. by rewrite xorb_false_r.
    + rewrite map_get_map_set.
      destruct (decide (f = fileIdx)) as [->|Hne].
      * rewrite Hmem, selected_cases. fold cur. f_equal.
        apply bool_decide_ext. tauto.
      * rewrite bool_decide_false by tauto. by rewrite xorb_false_r.
Qed.

(** X3: [handleToggleSheet] flips the selection of exactly the sheet it is
    given and of no other sheet of any file, and touches neither the files
    nor the analysis steps. *)
Theorem X3_toggle_sheet_flips_one fileIdx sheetIdx st :
  wf_map (selectedSheetsMap st) →
  wf_map (selectedSheetsMap (handleToggleSheet fileIdx sheetIdx st)) ∧
  (∀ f s, selected (selectedSheetsMap (handleToggleSheet fileIdx sheetIdx st)) f s
          = xorb (selected (selectedSheetsMap st) f s)
                 (bool_decide (f = fileIdx ∧ s = sheetIdx))) ∧
  fileDatas (handleToggleSheet fileIdx sheetIdx st) = fileDatas st ∧
  stepAnalyses (handleToggleSheet fileIdx sheetIdx st) = stepAnalyses st.
Proof. apply handleToggleSheet_selected. Qed.

Lemma X3_toggle_sheet_flips_one_witness :
  wf_map (selectedSheetsMap sample_state) ∧
  selected (selectedSheetsMap (handleToggleSheet 0 0 sample_state)) 0 0 = false.
Proof.
  assert (H : wf_map (selectedSheetsMap sample_state)).
  { split; simpl; repeat constructor; by intros ?%elem_of_nil. }
  split; [exact H|].
  exact (proj1 (proj2 (X3_toggle_sheet_flips_one 0 0 sample_state H)) 0 0).
Defined.

(** X4: toggling the same sheet twice gives back the selection: every sheet
    of every file is selected afterwards exactly if it was before. *)
Theorem X4_toggle_sheet_twice fileIdx sheetIdx st :
  wf_map (selectedSheetsMap st) →
  ∀ f s,
    selected (selectedSheetsMap
                (handleToggleSheet fileIdx sheetIdx
                   (handleToggleSheet fileIdx sheetIdx st))) f s
    = selected (selectedSheetsMap st) f s.
Proof.
  intros Hwf f s.
  destruct (handleToggleSheet_selected fileIdx sheetIdx st Hwf) as (Hwf' & H1 & _).
  destruct (handleToggleSheet_selected fileIdx sheetIdx _ Hwf') as (_ & H2 & _).
  rewrite H2, H1. by destruct (selected _ f s), (bool_decide _).
Qed.

Lemma X4_toggle_sheet_twice_witness :
  wf_map (selectedSheetsMap sample_state) ∧
  selected (selectedSheetsMap (handleToggleSheet 0 3 (handleToggleSheet 0 3 sample_state)))
    0 0 = true.
Proof.
  assert (H : wf_map (selectedSheetsMap sample_state)).
  { split; simpl; repeat constructor; by intros ?%elem_of_nil. }
  split; [exact H|].
  exact (X4_toggle_sheet_twice 0 3 sample_state H 0 0).
Defined.


Lemma all_indices {B : Type} (l : list B) :
  new_Set (imap (λ i _, i) l) = seq 0 (length l).
Proof.
  rewrite (imap_seq_0 l (λ i, i)), list_fmap_id.
  apply new_Set_id, NoDup_seq.
Qed.

Lemma set_has_seq s n : set_has s (seq 0 n) = bool_decide (s < n).
Proof.
  unfold set_has. apply bool_decide_ext. rewrite elem_of_seq. lia.
Qed.

Lemma handleToggleFile_selected fileIdx st fds file :
  wf_map (selectedSheetsMap st) →
  fileDatas st = Some fds → fds !! fileIdx = Some file →
  ∃ st', handleToggleFile fileIdx st = Some st' ∧
    wf_map (selectedSheetsMap st') ∧
    fileDatas st' = fileDatas st ∧
    stepAnalyses st' = stepAnalyses st ∧
    ∀ f s, selected (selectedSheetsMap st') f s =
      if decide (f = fileIdx) then
        if decide (length (default [] (map_get fileIdx (selectedSheetsMap st)))
                   = length (sheets file))
        then false else bool_decide (s < length (sheets file))
      else selected (selectedSheetsMap st) f s.
Proof.
  intros Hwf Hfds Hfile. unfold handleToggleFile. rewrite Hfds, Hfile.
  rewrite new_Map_id by apply Hwf. unfold set_size.
  change (new_Set (@nil nat)) with (@nil nat).
  case_decide as Hsize.
  - eexists. split; [done|]. simpl.
    split_and!; [by apply wf_map_delete|done|done|].
    intros f s. unfold selected at 1. rewrite map_get_map_delete.
    by destruct (decide (f = fileIdx)).
  - eexists. split; [done|]. simpl. rewrite all_indices.
    split_and!; [apply wf_map_set; [apply NoDup_seq|done]|done|done|].
    intros f s. unfold selected at 1. rewrite map_get_map_set.
    destruct (decide (f = fileIdx)); [|done]. apply set_has_seq.
Qed.

(** X5: [handleToggleFile] on an existing file selects all its sheets,
    unless as many sheets of it are selected as it has, in which case it
    deselects all of them; the sheets of other files, the files and the
    steps stay as they are. *)
Theorem X5_toggle_file_all_or_none fileIdx st fds file :
  wf_map (selectedSheetsMap st) →
  fileDatas st = Some fds → fds !! fileIdx = Some file →
  ∃ st', handleToggleFile fileIdx st = Some st' ∧
    wf_map (selectedSheetsMap st') ∧
    fileDatas st' = fileDatas st ∧
    stepAnalyses st' = stepAnalyses st ∧
    ∀ f s, selected (selectedSheetsMap st') f s =
      if decide (f = fileIdx) then
        if decide (length (default [] (map_get fileIdx (selectedSheetsMap st)))
                   = length (sheets file))
        then false else bool_decide (s < length (sheets file))
      else selected (selectedSheetsMap st) f s.
Proof. apply handleToggleFile_selected. Qed.

Lemma X5_toggle_file_all_or_none_witness :
  wf_map (selectedSheetsMap sample_state) ∧
  fileDatas sample_state = Some [sample_file] ∧
  [sample_file] !! 0 = Some sample_file ∧
  ∃ st', handleToggleFile 0 sample_state = Some st' ∧ selectedSheetsMap st' = [].
Proof.
  assert (H : wf_map (selectedSheetsMap sample_state)).
  { split; simpl; repeat constructor; by intros ?%elem_of_nil. }
  split_and!; [exact H|reflexivity|reflexivity|].
  destruct (X5_toggle_file_all_or_none 0 sample_state [sample_file] sample_file
              H eq_refl eq_refl) as (st' & Hst' & _).
  exists st'. split; [exact Hst'|].
  injection Hst' as <-. reflexivity.
Defined.

(** ** Selections made through the side bar *)

Lemma elem_of_selection_order (m : JsMap) f s :
  NoDup m.*1 → (f, s) ∈ selection_order m → selected m f s = true.
Proof.
  unfold selection_order, selected. intros Hnd.
  rewrite list_elem_of_bind. intros ([k v] & Hin & He).
  apply list_elem_of_fmap_1 in Hin as (s0 & [= -> ->] & Hs0). simpl in *.
  assert (map_get k m = Some v) as ->; [|by apply set_has_true].
  clear Hs0. induction m as [|[k0 v0] m IH]; [by apply elem_of_nil in He|].
  rewrite fmap_cons in Hnd. apply NoDup_cons in Hnd as [Hk0 Hnd]. simpl in *.
  apply elem_of_cons in He as [[= <- <-]|He].
  - by rewrite decide_True.
  - rewrite decide_False; [by apply IH|].
    intros ->. apply Hk0. by apply (list_elem_of_fmap_2 fst _ (k, v)).
Qed.

Lemma omap_all_Some {B C : Type} (g : B → option (option C)) (l : list B) :
  (∀ p, p ∈ l → ∃ x, g p = Some (Some x)) →
  ∃ xs, omap g l = Some <$> xs ∧ length xs = length l.
Proof.
  induction l as [|p l IH]; intros Hl.
  - by exists [].
  - destruct (Hl p) as [x Hx]; [by left|].
    destruct IH as (xs & Hxs & Hlen); [intros q Hq; apply Hl; by right|].
    exists (x :: xs). csimpl. rewrite Hx. csimpl. by rewrite Hxs, Hlen.
Qed.

Lemma flatMap_sheets_defined {B : Type} (f : SheetData → list B) shs :
  flatMap_sheets f (Some <$> shs) = Some (concat (f <$> shs)).
Proof. induction shs as [|sh shs IH]; [done|]. csimpl. by rewrite IH. Qed.

Lemma call_arguments_defined shs step :
  call_arguments (Some <$> shs) (Some step) =
    Some (make_call (concat ((λ sh, take 50 (rows sh)) <$> shs))
            (new_Set (concat (columns <$> shs))) step).
Proof.
  unfold call_arguments, combinedSample, combinedColumns.
  by rewrite !flatMap_sheets_defined.
Qed.

Lemma selection_valid_active st :
  wf_map (selectedSheetsMap st) → nonempty_sets (selectedSheetsMap st) →
  selection_valid st →
  ∃ shs, activeSheets st = Some <$> shs ∧
         length shs = length (selection_order (selectedSheetsMap st)).
Proof.
  intros [Hnd _] Hne Hval.
  destruct (fileDatas st) as [fds|] eqn:Hf.
  - rewrite (activeSheets_selected st fds Hf). unfold selected_sheets.
    apply omap_all_Some. intros [f s] Hin.
    apply elem_of_selection_order in Hin; [|done].
    destruct (Hval f s Hin) as (fds' & fd & sh & Hf' & Hfd & Hsh).
    rewrite Hf in Hf'. injection Hf' as <-. simpl. rewrite Hfd. simpl.
    rewrite Hsh. by exists sh.
  - rewrite lookup_fileDatas_None by done.
    destruct (selectedSheetsMap st) as [|[k v] m] eqn:Hm; [by exists []|].
    apply Forall_inv in Hne. simpl in Hne. destruct v as [|s v]; [done|].
    destruct (Hval k s) as (fds & _ & _ & Hf' & _); [|congruence].
    unfold selected. rewrite Hm. cbn [map_get]. rewrite decide_True by done.
    apply set_has_true. by left.
Qed.

Lemma ui_reachable_selection c :
  ui_reachable c →
  wf_map (selectedSheetsMap (app c)) ∧ selection_ok (app c) ∧ selection_valid (app c).
Proof.
  induction 1 as [|c a Hc (Hwf & Hok & Hval) Ha].
  - split_and!; [split; constructor|split; [constructor|done]|done].
  - destruct a as [d|f s|f| | |clock cs|target t d|i o]; simpl in *.
    + split_and!.
      * case_decide; [|split; constructor].
        split; simpl; repeat constructor; by intros ?%elem_of_nil.
      * split; [apply handleDataLoaded_nonempty|]. by intros ? [= <-].
      * intros f s. unfold selected. simpl.
        case_decide as Hlen; simpl; [|done].
        case_decide as Hf; [subst f|done].
        intros Hs%set_has_true%list_elem_of_singleton. subst s.
        destruct d as [|fd d]; [simpl in Hlen; lia|].
        apply Forall_inv in Ha. destruct (sheets fd) as [|sh shs] eqn:Hsh; [done|].
        exists (fd :: d), fd, sh. by rewrite Hsh.
    + destruct (handleToggleSheet_selected f s (app c) Hwf) as (Hwf' & Hsel & Hfd & _).
      split_and!; [done| |].
      * destruct Hok as [Hne Hsheets]. split; [by apply handleToggleSheet_nonempty|done].
      * intros f' s'. rewrite Hsel.
        destruct (selected (selectedSheetsMap (app c)) f' s') eqn:Hold.
        -- intros _. by apply Hval.
        -- simpl. intros [-> ->]%bool_decide_eq_true.
           destruct Ha as (fds & fd & Hfds & Hfile & Hlt).
           destruct (lookup_lt_is_Some_2 (sheets fd) s Hlt) as [sh Hsh].
           by exists fds, fd, sh.
    + destruct (handleToggleFile f (app c)) as [st'|] eqn:Ht; [|done]. simpl.
      split_and!; [| by eapply handleToggleFile_nonempty|].
      * destruct (fileDatas (app c)) as [fds|] eqn:Hfds.
        -- destruct (fds !! f) as [file|] eqn:Hfile.
           ++ destruct (handleToggleFile_selected f (app c) fds file Hwf Hfds Hfile)
                as (st'' & Ht' & Hwf' & _). congruence.
           ++ unfold handleToggleFile in Ht. by rewrite Hfds, Hfile in Ht.
        -- unfold handleToggleFile in Ht. rewrite Hfds in Ht. by injection Ht as <-.
      * destruct (fileDatas (app c)) as [fds|] eqn:Hfds.
        -- destruct (fds !! f) as [file|] eqn:Hfile.
           ++ destruct (handleToggleFile_selected f (app c) fds file Hwf Hfds Hfile)
                as (st'' & Ht' & _ & Hfd & _ & Hsel).
              assert (st'' = st') as -> by congruence.
              intros f' s'. rewrite Hsel, Hfd.
              destruct (decide (f' = f)) as [->|]; [|by apply Hval].
              case_decide; [done|]. intros Hlt%bool_decide_eq_true.
              destruct (lookup_lt_is_Some_2 (sheets file) s' Hlt) as [sh Hsh].
              by exists fds, file, sh.
           ++ unfold handleToggleFile in Ht. by rewrite Hfds, Hfile in Ht.
        -- unfold handleToggleFile in Ht. rewrite Hfds in Ht. by injection Ht as <-.
    + split_and!; [split; constructor|split; [constructor|done]|done].
    + done.
    + done.
    + done.
    + by destruct (tasks c !! i).
Qed.

(** X7: as long as every uploaded file has a sheet and only existing
    sheets are toggled, every selected sheet exists: [activeSheets] holds
    one defined sheet per selected pair, and the arguments of the service
    call can always be evaluated. *)
Theorem X7_selection_stays_valid c :
  ui_reachable c →
  wf_map (selectedSheetsMap (app c)) ∧
  nonempty_sets (selectedSheetsMap (app c)) ∧
  selection_valid (app c) ∧
  ∃ shs, activeSheets (app c) = Some <$> shs ∧
    length shs = length (selection_order (selectedSheetsMap (app c))) ∧
    ∀ step, call_arguments (activeSheets (app c)) (Some step) =
      Some (make_call (concat ((λ sh, take 50 (rows sh)) <$> shs))
              (new_Set (concat (columns <$> shs))) step).
Proof.
  intros Hc. destruct (ui_reachable_selection c Hc) as (Hwf & [Hne _] & Hval).
  split_and!; [done..|].
  destruct (selection_valid_active (app c) Hwf Hne Hval) as (shs & Hact & Hlen).
  exists shs. split_and!; [done|done|]. intros step. rewrite Hact.
  apply call_arguments_defined.
Qed.

Lemma X7_selection_stays_valid_witness :
  ui_reachable (perform (ToggleFile 0) (perform (DataLoaded [sample_file]) initialConfig)) ∧
  nonempty_sets (selectedSheetsMap
    (app (perform (ToggleFile 0) (perform (DataLoaded [sample_file]) initialConfig)))).
Proof.
  assert (H : ui_reachable (perform (ToggleFile 0)
                              (perform (DataLoaded [sample_file]) initialConfig))).
  { apply ui_step; [apply ui_step; [apply ui_initial|]|exact I].
    simpl. repeat constructor. discriminate. }
  split; [exact H|].
  exact (proj1 (proj2 (X7_selection_stays_valid _ H))).
Defined.


(** ** Whole runs of [runAnalysis] *)

Lemma flatMap_sheets_undefined {B : Type} (f : SheetData → list B) act :
  None ∈ act → flatMap_sheets f act = None.
Proof.
  induction act as [|[s|] act IH]; [by intros ?%elem_of_nil| |done].
  intros [|Hin]%elem_of_cons; [done|]. simpl. by rewrite IH.
Qed.

(** X8: when one of the selected sheets does not exist, [runAnalysis] never
    calls the service: it returns with every step at [error] and without a
    result.  An upload whose first file has no sheet is such a case. *)
Theorem X8_undefined_sheet_fails_all act clock cs oracle st0 :
  None ∈ act → cs ≠ [] →
  let r := exec (runAnalysis act clock (Some cs)) oracle st0 in
  calls_of (events r) = [] ∧
  returned r = Some () ∧
  unused r = oracle ∧
  length (final r) = length cs ∧
  (∀ i s, final r !! i = Some s → status s = error ∧ result s = None) ∧
  (∀ f rest st, sheets f = [] → None ∈ activeSheets (handleDataLoaded (f :: rest) st)).
Proof.
  intros Hact Hcs r. subst r. rewrite exec_runAnalysis by done.
  cbn [emit events final returned unused]. rewrite calls_of_app.
  change (calls_of [EvSteps _]) with (@nil AnalyzeCall). rewrite app_nil_l.
  assert (Hne : act ≠ []) by (intros ->; by apply elem_of_nil in Hact).
  assert (Hnone : ∀ step, call_arguments act step = None).
  { intros step. unfold call_arguments, combinedSample.
    by rewrite flatMap_sheets_undefined. }
  destruct (runAnalysis_loop_throws act (initial_steps clock cs) (length cs) 0
              (initial_steps clock cs) oracle Hne Hnone) as (Hc & Hf & Hu & Hr).
  split_and!; [done|done|done| | |].
  - by rewrite runAnalysis_loop_length, length_initial_steps.
  - intros i s. rewrite Hf.
    destruct (initial_steps clock cs !! i) as [s0|] eqn:Hs0; [|done].
    pose proof (lookup_lt_Some _ _ _ Hs0) as Hlt. rewrite length_initial_steps in Hlt.
    apply initial_steps_pending in Hs0 as [_ Hres].
    simpl. rewrite decide_True by lia. by intros [= <-].
  - intros f rest st Hf0. unfold activeSheets. simpl. rewrite Hf0. by left.
Qed.

Lemma X8_undefined_sheet_fails_all_witness :
  None ∈ activeSheets (handleDataLoaded [empty_file] initialState) ∧
  sample_steps ≠ [] ∧
  calls_of (events (exec (runAnalysis (activeSheets (handleDataLoaded [empty_file]
                                                      initialState))
                            sample_clock (Some sample_steps))
                      [Resolved sample_result] [])) = [].
Proof.
  assert (H1 : None ∈ activeSheets (handleDataLoaded [empty_file] initialState))
    by apply list_elem_of_here.
  assert (H2 : sample_steps ≠ []) by discriminate.
  split_and!; [exact H1|exact H2|].
  exact (proj1 (X8_undefined_sheet_fails_all _ sample_clock sample_steps
                  [Resolved sample_result] [] H1 H2)).
Defined.

(** X9: with existing sheets selected, [runAnalysis] makes one call per
    step until a call does not settle: it returns exactly when every step's
    call settles, consumes one settlement per step, and leaves each step as
    the settlement of its own call makes it, whatever happened to the other
    steps: a rejected step does not stop the steps after it. *)
Theorem X9_run_closed_form shs clock cs oracle st0 :
  shs ≠ [] → cs ≠ [] →
  let r := exec (runAnalysis (Some <$> shs) clock (Some cs)) oracle st0 in
  length (calls_of (events r)) = length cs `min` S (length oracle) ∧
  (returned r = Some () ↔ length cs ≤ length oracle) ∧
  unused r = drop (length cs) oracle ∧
  ∀ i s, cs !! i = Some s →
    final r !! i =
      Some (if decide (i ≤ length oracle)
            then settle_with (oracle !! i) (parse_step (clock i) i s)
            else parse_step (clock i) i s).
Proof.
  intros Hshs Hcs r. subst r. rewrite exec_runAnalysis by done.
  cbn [emit events final returned unused]. rewrite calls_of_app.
  change (calls_of [EvSteps _]) with (@nil AnalyzeCall). rewrite app_nil_l.
  assert (Hact : Some <$> shs ≠ []) by (by destruct shs).
  assert (Hlen : 0 + length cs ≤ length (initial_steps clock cs)).
  { by rewrite length_initial_steps. }
  assert (Hcols : combinedColumns (Some <$> shs)
                  = Some (new_Set (concat (columns <$> shs)))).
  { unfold combinedColumns. by rewrite flatMap_sheets_defined. }
  destruct (runAnalysis_loop_calls (Some <$> shs) (initial_steps clock cs) _ _
              (length cs) 0 (initial_steps clock cs) oracle Hact
              (flatMap_sheets_defined _ shs) Hcols Hlen) as (Hc & Hf & Hu & Hr).
  rewrite Hc, Hu, Hr. split_and!.
  - rewrite length_take, length_fmap, length_take, drop_0, length_initial_steps. lia.
  - case_decide; [done|]. split; [done|lia].
  - done.
  - intros i s Hs. rewrite Hf, lookup_initial_steps, Hs. simpl. f_equal.
    pose proof (lookup_lt_Some _ _ _ Hs). rewrite Nat.sub_0_r.
    repeat case_decide; first [done|lia].
Qed.

Lemma X9_run_closed_form_witness :
  [sample_sheet] ≠ [] ∧ sample_steps ≠ [] ∧
  length (calls_of (events (exec (runAnalysis (Some <$> [sample_sheet]) sample_clock
                                    (Some sample_steps)) [Rejected] []))) = 2.
Proof.
  assert (H1 : [sample_sheet] ≠ []) by discriminate.
  assert (H2 : sample_steps ≠ []) by discriminate.
  split_and!; [exact H1|exact H2|].
  exact (proj1 (X9_run_closed_form [sample_sheet] sample_clock sample_steps
                  [Rejected] [] H1 H2)).
Defined.

(** ** Step identifiers *)

Lemma of_ascii_inj a b : of_ascii a = of_ascii b → a = b.
Proof.
  unfold of_ascii. intros H.
  rewrite <- (string_of_list_ascii_of_string a), <- (string_of_list_ascii_of_string b).
  f_equal. revert H. generalize (list_ascii_of_string b).
  induction (list_ascii_of_string a) as [|x l IH]; intros [|y k]; simpl; try done.
  intros [= Hxy Hlk]. f_equal; [|by apply IH].
  by rewrite <- (ascii_N_embedding x), <- (ascii_N_embedding y), Hxy.
Qed.

Lemma digits_of_uint d : Forall is_digit (of_ascii (NilEmpty.string_of_uint d)).
Proof.
  unfold of_ascii. induction d; simpl; [apply Forall_nil_2|..];
    (apply Forall_cons_2; [unfold is_digit; lia|done]).
Qed.

Lemma string_of_uint_nonnil d :
  d ≠ Decimal.Nil → NilZero.string_of_uint d = NilEmpty.string_of_uint d.
Proof. by destruct d. Qed.

Lemma nat_to_uint_nonnil n : Nat.to_uint n ≠ Decimal.Nil.
Proof.
  rewrite <- (DecimalNat.Unsigned.of_to n) at 1.
  rewrite DecimalNat.Unsigned.to_of. apply DecimalFacts.unorm_nonnil.
Qed.

Lemma N_to_uint_nonnil n : N.to_uint n ≠ Decimal.Nil.
Proof.
  rewrite <- (DecimalN.Unsigned.of_to n) at 1.
  rewrite DecimalN.Unsigned.to_of. apply DecimalFacts.unorm_nonnil.
Qed.

Lemma nat_to_string_digits n : Forall is_digit (nat_to_string n).
Proof.
  unfold nat_to_string. rewrite string_of_uint_nonnil by apply nat_to_uint_nonnil.
  apply digits_of_uint.
Qed.

Lemma N_to_string_digits n : Forall is_digit (N_to_string n).
Proof.
  unfold N_to_string. rewrite string_of_uint_nonnil by apply N_to_uint_nonnil.
  apply digits_of_uint.
Qed.

Lemma nat_to_string_nonempty n : nat_to_string n ≠ [].
Proof.
  unfold nat_to_string. rewrite string_of_uint_nonnil by apply nat_to_uint_nonnil.
  pose proof (nat_to_uint_nonnil n). by destruct (Nat.to_uint n).
Qed.

Lemma nat_to_string_inj n m : nat_to_string n = nat_to_string m → n = m.
Proof.
  unfold nat_to_string. intros H%of_ascii_inj.
  apply DecimalNat.Unsigned.to_uint_inj.
  pose proof (NilZero.usu _ (nat_to_uint_nonnil n)) as Hn.
  pose proof (NilZero.usu _ (nat_to_uint_nonnil m)) as Hm.
  rewrite H in Hn. congruence.
Qed.

Lemma not_digit_not_in c l : Forall is_digit l → ¬ is_digit c → c ∉ l.
Proof. intros Hl Hc Hin. rewrite Forall_forall in Hl. by apply Hc, Hl. Qed.

Lemma app_cons_unique {X : Type} (x : X) l1 r1 l2 r2 :
  x ∉ l1 → x ∉ l2 → l1 ++ x :: r1 = l2 ++ x :: r2 → l1 = l2 ∧ r1 = r2.
Proof.
  revert l2. induction l1 as [|a l1 IH]; intros [|b l2]; simpl.
  - by intros _ _ [= ->].
  - intros _ Hb [= -> _]. destruct Hb. by left.
  - intros Ha _ [= -> _]. destruct Ha. by left.
  - rewrite !not_elem_of_cons. intros [_ H1] [_ H2] [= -> Heq].
    destruct (IH l2 H1 H2 Heq) as [-> ->]. done.
Qed.

Lemma step_id_inj now idx now' idx' :
  step_id now idx = step_id now' idx' → idx = idx'.
Proof.
  unfold step_id. intros H%app_inv_head.
  change (of_ascii "-" ++ ?x) with (45%N :: x) in H.
  apply app_cons_unique in H as [_ H]; [by apply nat_to_string_inj|..];
    (eapply not_digit_not_in; [apply N_to_string_digits|unfold is_digit; lia]).
Qed.

Lemma findIndex_ids target l l' :
  id <$> l = id <$> l' → findIndex target l = findIndex target l'.
Proof.
  revert l'. induction l as [|s l IH]; intros [|s' l']; try done.
  rewrite !fmap_cons. intros [= Hid Hl]. specialize (IH l' Hl).
  unfold findIndex in *. simpl. rewrite Hid.
  destruct (decide (id s' = target)); [done|].
  destruct (list_find _ l) as [[i x]|], (list_find _ l') as [[i' x']|];
    simpl in *; congruence.
Qed.

Lemma chain_same_ids_elem a l st :
  chain same_ids a l → st ∈ a :: l → same_ids a st.
Proof.
  revert a. induction l as [|b l IH]; intros a.
  - intros _ ->%list_elem_of_singleton. apply same_ids_refl.
  - intros [Hab Hl] [->|Hin]%elem_of_cons; [apply same_ids_refl|].
    eapply same_ids_trans; [exact Hab|]. by apply IH.
Qed.

Lemma initial_steps_id_inj clock cs i j s s' :
  initial_steps clock cs !! i = Some s → initial_steps clock cs !! j = Some s' →
  id s = id s' → i = j.
Proof.
  rewrite !lookup_initial_steps.
  destruct (cs !! i) as [x|], (cs !! j) as [y|]; try done.
  intros [= <-] [= <-]. apply step_id_inj.
Qed.

Lemma initial_steps_findIndex clock cs i s :
  initial_steps clock cs !! i = Some s →
  findIndex (id s) (initial_steps clock cs) = Some i.
Proof.
  intros Hs. apply findIndex_Some. exists s. split_and!; [done|done|].
  intros j s' Hs' Hlt Heq.
  pose proof (initial_steps_id_inj _ _ _ _ _ _ Hs' Hs Heq). lia.
Qed.

(** X11: the steps of one analysis have pairwise different ids, whatever
    [Date.now()] returns while they are built; so during and after the run
    the id of a step finds exactly that step, and [handleReAnalyzeStep]
    given the id of step [i] re-runs step [i]. *)
Theorem X11_step_ids_identify clock cs :
  NoDup (id <$> initial_steps clock cs) ∧
  (∀ act oracle st0 st i s, cs ≠ [] →
     st ∈ states_of (events (exec (runAnalysis act clock (Some cs)) oracle st0)) →
     st !! i = Some s → findIndex (id s) st = Some i).
Proof.
  split.
  - apply NoDup_alt. intros i j x. rewrite !list_lookup_fmap.
    destruct (initial_steps clock cs !! i) as [s|] eqn:Hs; [|done].
    destruct (initial_steps clock cs !! j) as [s'|] eqn:Hs'; [|done].
    simpl. intros [= <-] [= Heq].
    by eapply initial_steps_id_inj.
  - intros act oracle st0 st i s Hcs Hin Hs.
    assert (Hids : same_ids (initial_steps clock cs) st).
    { rewrite states_runAnalysis in Hin by done.
      eapply chain_same_ids_elem; [|exact Hin].
      eapply chain_impl; [apply execution_update_same_ids|].
      apply runAnalysis_loop_execution_update. }
    destruct Hids as [_ Hids].
    rewrite (findIndex_ids _ st (initial_steps clock cs)) by done.
    assert (Hi : id <$> st !! i = id <$> initial_steps clock cs !! i).
    { by rewrite <- !list_lookup_fmap, Hids. }
    rewrite Hs in Hi. simpl in Hi.
    destruct (initial_steps clock cs !! i) as [s0|] eqn:Hs0; [|done].
    injection Hi as ->. by apply initial_steps_findIndex.
Qed.

Lemma X11_step_ids_identify_witness :
  sample_steps ≠ [] ∧
  findIndex (step_id 1700000000000 1) sample_analyzed = Some 1.
Proof.
  assert (H : sample_steps ≠ []) by discriminate.
  split; [exact H|].
  assert (Hin : sample_analyzed ∈ states_of (events
            (exec (runAnalysis (activeSheets sample_state) sample_clock (Some sample_steps))
               [Resolved sample_result; Resolved sample_result] []))).
  { do 4 apply list_elem_of_further. apply list_elem_of_here. }
  exact (proj2 (X11_step_ids_identify sample_clock sample_steps)
           (activeSheets sample_state) [Resolved sample_result; Resolved sample_result]
           [] sample_analyzed 1 _ H Hin eq_refl).
Defined.


(** ** Shape of a parsed step *)

Lemma is_digit_not_space c : is_digit c → is_white_space c = false.
Proof.
  unfold is_digit, is_white_space. intros Hc.
  rewrite (proj2 (N.leb_gt c 13)) by lia.
  rewrite (proj2 (N.leb_gt 8192 c)) by lia.
  rewrite !(proj2 (N.eqb_neq c _)) by lia.
  by rewrite andb_false_r.
Qed.

Lemma not_elem_of_before_first_colon s : colon ∉ before_first_colon s.
Proof.
  induction s as [|c s IH]; simpl; [apply not_elem_of_nil|].
  destruct (N.eqb_spec c colon) as [->|Hne]; [apply not_elem_of_nil|].
  rewrite not_elem_of_cons. split; [congruence|done].
Qed.

Lemma elem_of_trim c s : c ∈ trim s → c ∈ s.
Proof.
  destruct (trim_spec s) as (pre & suf & Hs & _). intros Hc.
  rewrite Hs, !elem_of_app. auto.
Qed.

Lemma default_title_shape n :
  default_title n ≠ [] ∧ (colon ∉ default_title n) ∧ trimmed (default_title n).
Proof.
  unfold default_title. pose proof (nat_to_string_digits n) as Hd.
  split_and!; [done| |split].
  - rewrite not_elem_of_app. split.
    + intros Hin. repeat (apply elem_of_cons in Hin as [Hin|Hin]; [done|]).
      by apply elem_of_nil in Hin.
    + eapply not_digit_not_in; [done|unfold is_digit, colon; lia].
  - by intros c [= <-].
  - intros c. rewrite last_app.
    destruct (last (nat_to_string n)) as [y|] eqn:Hy.
    + intros [= <-]. apply is_digit_not_space.
      rewrite Forall_forall in Hd. by eapply Hd, last_Some_elem_of.
    + apply last_None in Hy. by destruct (nat_to_string_nonempty n).
Qed.

Lemma before_after_colon_app a b :
  colon ∉ a →
  before_first_colon (a ++ colon :: b) = a ∧ after_first_colon (a ++ colon :: b) = b.
Proof.
  intros Ha. induction a as [|c a IH]; [done|].
  apply not_elem_of_cons in Ha as [Hc Ha]. simpl.
  destruct (N.eqb_spec c colon); [done|]. by destruct (IH Ha) as [-> ->].
Qed.

Lemma trimStart_trimmed s :
  (∀ c, head s = Some c → is_white_space c = false) → trimStart s = s.
Proof. destruct s as [|c s]; [done|]. intros H. simpl. by rewrite (H c). Qed.

Lemma trim_trimmed s : trimmed s → trim s = s.
Proof.
  intros [Hh Hl]. unfold trim, trimEnd. rewrite (trimStart_trimmed s) by done.
  rewrite trimStart_trimmed; [apply reverse_involutive|].
  intros c. rewrite head_reverse. apply Hl.
Qed.

Lemma parse_step_fields now idx s :
  title (parse_step now idx s) =
    or_else (trim (before_first_colon s)) (default_title (idx + 1)) ∧
  description (parse_step now idx s) = or_else (trim (after_first_colon s)) s.
Proof.
  unfold parse_step. destruct (split_colon s) as (rest & -> & Hrest).
  simpl. by rewrite drop_0, Hrest.
Qed.

(** X12: every parsed step has a title that is not empty, contains no
    [':'] and has no white space at its ends; its description is empty only
    for the empty input, and is either the input itself or free of white
    space at its ends. *)
Theorem X12_parsed_step_shape now idx s :
  title (parse_step now idx s) ≠ [] ∧
  (colon ∉ title (parse_step now idx s)) ∧
  trimmed (title (parse_step now idx s)) ∧
  (description (parse_step now idx s) = [] ↔ s = []) ∧
  (description (parse_step now idx s) = s ∨ trimmed (description (parse_step now idx s))).
Proof.
  destruct (parse_step_fields now idx s) as [-> ->].
  destruct (default_title_shape (idx + 1)) as (Hd1 & Hd2 & Hd3).
  destruct (trim_spec (before_first_colon s)) as (? & ? & _ & _ & _ & Htr).
  destruct (trim_spec (after_first_colon s)) as (? & ? & _ & _ & _ & Htr').
  assert (Hcol : colon ∉ trim (before_first_colon s)).
  { intros Hin%elem_of_trim. by apply (not_elem_of_before_first_colon s). }
  destruct (trim (before_first_colon s)) as [|c t] eqn:Ht; simpl;
    (split_and!; [done|done|done| |]);
    destruct (trim (after_first_colon s)) as [|c' d] eqn:Hdesc; simpl;
    try (by left); try (by right); try done.
  all: split; [done|intros ->; discriminate Hdesc].
Qed.

(** X13: a step written as [title: description], with a non-empty title
    without [':'] and a non-empty description, both without white space at
    their ends, is parsed back into that title and that description. *)
Theorem X13_parse_formatted now idx t d :
  t ≠ [] → colon ∉ t → trimmed t → d ≠ [] → trimmed d →
  title (parse_step now idx (t ++ colon :: 32%N :: d)) = t ∧
  description (parse_step now idx (t ++ colon :: 32%N :: d)) = d.
Proof.
  intros Ht Hcol Htt Hd Htd.
  destruct (parse_step_fields now idx (t ++ colon :: 32%N :: d)) as [-> ->].
  destruct (before_after_colon_app t (32%N :: d) Hcol) as [-> ->].
  rewrite (trim_trimmed t) by done.
  change (trim (32%N :: d)) with (trim d). rewrite (trim_trimmed d) by done.
  by destruct t, d.
Qed.

Lemma X13_parse_formatted_witness :
  of_ascii "Totals" ≠ [] ∧ (colon ∉ of_ascii "Totals") ∧
  trimmed (of_ascii "Totals") ∧
  of_ascii "sum by region" ≠ [] ∧ trimmed (of_ascii "sum by region") ∧
  title (parse_step 7 0 (of_ascii "Totals" ++ colon :: 32%N :: of_ascii "sum by region"))
    = of_ascii "Totals".
Proof.
  assert (H1 : of_ascii "Totals" ≠ []) by discriminate.
  assert (H2 : colon ∉ of_ascii "Totals").
  { intros Hin. repeat (apply elem_of_cons in Hin as [Hin|Hin]; [discriminate Hin|]).
    by apply elem_of_nil in Hin. }
  assert (H3 : trimmed (of_ascii "Totals")).
  { split; intros c [= <-]; reflexivity. }
  assert (H4 : of_ascii "sum by region" ≠ []) by discriminate.
  assert (H5 : trimmed (of_ascii "sum by region")).
  { split; intros c [= <-]; reflexivity. }
  split_and!; [exact H1|exact H2|exact H3|exact H4|exact H5|].
  exact (proj1 (X13_parse_formatted 7 0 _ _ H1 H2 H3 H4 H5)).
Defined.


(** ** Outcome of a re-run *)

Lemma map_at_analyzing_edited newTitle newDescription index steps :
  map_at index (with_status analyzing)
    (alter (edit_step newTitle newDescription) index steps)
  = alter (edit_step newTitle newDescription) index steps.
Proof.
  apply list_eq. intros j. rewrite lookup_map_at.
  destruct (decide (j = index)) as [->|Hne].
  - rewrite list_lookup_alter_eq. by destruct (steps !! index).
  - rewrite list_lookup_alter_ne by done. by destruct (steps !! j).
Qed.

Lemma exec_handleReAnalyzeStep shs steps target newTitle newDescription oracle index s :
  shs ≠ [] → findIndex target steps = Some index → steps !! index = Some s →
  let r := exec (handleReAnalyzeStep (Some <$> shs) steps target newTitle newDescription)
             oracle steps in
  let edited := edit_step newTitle newDescription s in
  calls_of (events r) =
    [make_call (concat ((λ sh, take 50 (rows sh)) <$> shs))
       (new_Set (concat (columns <$> shs))) edited] ∧
  final r !! index =
    Some match oracle with
         | [] => edited
         | Resolved res :: _ => with_done res edited
         | Rejected :: _ => with_status error edited
         end ∧
  unused r = tail oracle ∧
  returned r = match oracle with [] => None | _ => Some () end.
Proof.
  intros Hshs Hf Hs r edited. subst r. unfold handleReAnalyzeStep. rewrite Hf.
  cbn [exec emit events final unused returned]. rewrite calls_of_app.
  change (calls_of [EvSteps _]) with (@nil AnalyzeCall). rewrite app_nil_l.
  set (updated := alter (edit_step newTitle newDescription) index steps).
  assert (Hu : updated !! index = Some edited).
  { unfold updated. by rewrite list_lookup_alter_eq, Hs. }
  assert (Hact : Some <$> shs ≠ []) by (by destruct shs).
  pose proof (call_arguments_defined shs edited) as Hargs.
  assert (Hm : map_at index (with_status analyzing) updated = updated).
  { apply map_at_analyzing_edited. }
  destruct (executeStep_run (Some <$> shs) index updated oracle updated Hact)
    as [Hc|c Hc ->|c res rest Hc ->|c rest Hc ->];
    rewrite Hu, Hargs in Hc; simplify_eq; cbn [events final unused returned];
    rewrite ?Hm, ?lookup_map_at_eq, ?Hu; done.
Qed.

(** X14: a re-run calls the service with the new title and the new
    description (not the old ones) and the data of the selected sheets; when
    the call resolves, the step is [done] with the new title, the new
    description and the new result, under its old id. *)
Theorem X14_rerun_resolved shs steps target newTitle newDescription res rest index s :
  shs ≠ [] → findIndex target steps = Some index → steps !! index = Some s →
  let r := exec (handleReAnalyzeStep (Some <$> shs) steps target newTitle newDescription)
             (Resolved res :: rest) steps in
  (∃ c, calls_of (events r) = [c] ∧
        arg_title c = newTitle ∧ arg_description c = newDescription ∧
        arg_sample c = concat ((λ sh, take 50 (rows sh)) <$> shs)) ∧
  final r !! index =
    Some {| id := id s; title := newTitle; description := newDescription;
            status := done; result := Some res |} ∧
  unused r = rest ∧ returned r = Some ().
Proof.
  intros Hshs Hf Hs r.
  destruct (exec_handleReAnalyzeStep shs steps target newTitle newDescription
              (Resolved res :: rest) index s Hshs Hf Hs) as (Hc & Hfin & Hu & Hr).
  split_and!; [|done|done|done]. eexists. by split.
Qed.

Lemma X14_rerun_resolved_witness :
  [sample_sheet] ≠ [] ∧
  findIndex (step_id 1700000000000 1) sample_analyzed = Some 1 ∧
  (∃ s, sample_analyzed !! 1 = Some s) ∧
  returned (exec (handleReAnalyzeStep (Some <$> [sample_sheet]) sample_analyzed
                    (step_id 1700000000000 1) (of_ascii "Trend by month")
                    (of_ascii "orders per month"))
              [Resolved sample_result] sample_analyzed) = Some ().
Proof.
  assert (H1 : [sample_sheet] ≠ []) by discriminate.
  assert (H2 : findIndex (step_id 1700000000000 1) sample_analyzed = Some 1)
    by reflexivity.
  split_and!; [exact H1|exact H2|by eexists|].
  exact (proj2 (proj2 (proj2 (X14_rerun_resolved [sample_sheet] sample_analyzed _
           (of_ascii "Trend by month") (of_ascii "orders per month")
           sample_result [] 1 _ H1 H2 eq_refl)))).
Defined.

(** X15: when the call of a re-run rejects, the step is [error] with the
    new title and the new description, and it keeps the result of its
    earlier analysis; while the call has not settled it is [analyzing],
    also with the earlier result. *)
Theorem X15_rerun_rejected shs steps target newTitle newDescription index s :
  shs ≠ [] → findIndex target steps = Some index → steps !! index = Some s →
  (∀ rest,
     final (exec (handleReAnalyzeStep (Some <$> shs) steps target newTitle newDescription)
              (Rejected :: rest) steps) !! index =
       Some {| id := id s; title := newTitle; description := newDescription;
               status := error; result := result s |}) ∧
  final (exec (handleReAnalyzeStep (Some <$> shs) steps target newTitle newDescription)
           [] steps) !! index =
    Some {| id := id s; title := newTitle; description := newDescription;
            status := analyzing; result := result s |}.
Proof.
  intros Hshs Hf Hs. split.
  - intros rest.
    by destruct (exec_handleReAnalyzeStep shs steps target newTitle newDescription
                   (Rejected :: rest) index s Hshs Hf Hs) as (_ & -> & _).
  - by destruct (exec_handleReAnalyzeStep shs steps target newTitle newDescription
                   [] index s Hshs Hf Hs) as (_ & -> & _).
Qed.

Lemma X15_rerun_rejected_witness :
  [sample_sheet] ≠ [] ∧
  findIndex (step_id 1700000000000 1) sample_analyzed = Some 1 ∧
  (result <$> final (exec (handleReAnalyzeStep (Some <$> [sample_sheet]) sample_analyzed
                    (step_id 1700000000000 1) (of_ascii "Trend by month")
                    (of_ascii "orders per month"))
              [Rejected] sample_analyzed) !! 1) = Some (Some sample_result).
Proof.
  assert (H1 : [sample_sheet] ≠ []) by discriminate.
  assert (H2 : findIndex (step_id 1700000000000 1) sample_analyzed = Some 1)
    by reflexivity.
  split_and!; [exact H1|exact H2|].
  rewrite (proj1 (X15_rerun_rejected [sample_sheet] sample_analyzed _
           (of_ascii "Trend by month") (of_ascii "orders per month")
           1 _ H1 H2 eq_refl) []).
  reflexivity.
Defined.

(** ** Settlements that arrive late *)

Lemma same_ids_nil st : same_ids [] st → st = [].
Proof. intros [Hl _]. by destruct st. Qed.

Lemma perform_settle_steps c i o :
  waiting_preserve c →
  same_ids (stepAnalyses (app c)) (stepAnalyses (app (perform (Settle i o) c))).
Proof.
  intros Hc. destruct (perform_steps (Settle i o) c Hc) as [[H|[[[[d Hd]|Hd] _]|H]] _];
    [done|discriminate Hd..|].
  destruct H as (clock & cs & Hd & _). discriminate Hd.
Qed.

(** X16: after [reset] or a new upload, calls of an earlier analysis that
    settle late change nothing: the step list stays empty, however many of
    them settle and with whatever outcome. *)
Theorem X16_late_settlements_after_reset c a l :
  reachable c → a = Reset ∨ (∃ d, a = DataLoaded d) →
  forallb is_settle l = true →
  stepAnalyses (app (foldl (λ c a, perform a c) (perform a c) l)) = [].
Proof.
  intros Hc Ha Hl.
  assert (H0 : waiting_preserve (perform a c) ∧ stepAnalyses (app (perform a c)) = []).
  { split; [by apply perform_steps, reachable_waiting|].
    by destruct Ha as [->|[d ->]]. }
  revert H0. generalize (perform a c). clear Hc Ha.
  induction l as [|b l IH]; intros c' [Hw Hs]; [done|].
  simpl in Hl. apply andb_true_iff in Hl as [Hb Hl].
  destruct b as [| | | | | | |i o]; try done. cbn [foldl]. apply IH; [done|].
  split; [exact (proj2 (perform_steps (Settle i o) c' Hw))|].
  apply same_ids_nil. rewrite <- Hs. by apply perform_settle_steps.
Qed.

Lemma X16_late_settlements_after_reset_witness :
  reachable (run_actions [DataLoaded [sample_file];
                          RunAnalysis sample_clock (Some sample_steps)]) ∧
  (Reset = Reset ∨ ∃ d, Reset = DataLoaded d) ∧
  forallb is_settle [Settle 0 (Resolved sample_result)] = true ∧
  stepAnalyses (app (run_actions [DataLoaded [sample_file];
                                  RunAnalysis sample_clock (Some sample_steps);
                                  Reset; Settle 0 (Resolved sample_result)])) = [].
Proof.
  assert (H1 : reachable (run_actions [DataLoaded [sample_file];
                                       RunAnalysis sample_clock (Some sample_steps)])).
  { by eexists. }
  assert (H2 : Reset = Reset ∨ ∃ d, Reset = DataLoaded d) by (left; reflexivity).
  assert (H3 : forallb is_settle [Settle 0 (Resolved sample_result)] = true)
    by reflexivity.
  split_and!; [exact H1|exact H2|exact H3|].
  exact (X16_late_settlements_after_reset _ Reset _ H1 H2 H3).
Defined.

(** ** A fresh upload *)

(** X17: after an upload the first sheet of the first file, and nothing
    else, is selected: a service call carries the first 50 rows and the
    distinct columns of that sheet.  After an upload without files nothing
    is selected.  Either way the steps of an earlier analysis are gone. *)
Theorem X17_upload_selects_first_sheet :
  (∀ f rest st sh step, sheets f !! 0 = Some sh →
     activeSheets (handleDataLoaded (f :: rest) st) = [Some sh] ∧
     call_arguments (activeSheets (handleDataLoaded (f :: rest) st)) (Some step) =
       Some (make_call (take 50 (rows sh)) (new_Set (columns sh)) step)) ∧
  (∀ st, activeSheets (handleDataLoaded [] st) = []) ∧
  (∀ d st, stepAnalyses (handleDataLoaded d st) = []).
Proof.
  split_and!; [|done|done].
  intros f rest st sh step Hsh.
  assert (Hact : activeSheets (handleDataLoaded (f :: rest) st) = [Some sh]).
  { unfold activeSheets. simpl. by rewrite Hsh. }
  split; [done|]. rewrite Hact.
  pose proof (call_arguments_defined [sh] step) as H. simpl in H.
  by rewrite !app_nil_r in H.
Qed.

Lemma X17_upload_selects_first_sheet_witness :
  sheets sample_file !! 0 = Some sample_sheet ∧
  activeSheets (handleDataLoaded [sample_file; empty_file] initialState)
    = [Some sample_sheet].
Proof.
  assert (H : sheets sample_file !! 0 = Some sample_sheet) by reflexivity.
  split; [exact H|].
  exact (proj1 (proj1 X17_upload_selects_first_sheet sample_file [empty_file]
                  initialState sample_sheet (parse_step 7 0 []) H)).
Defined.


(** ** Two analyses at once *)

Lemma run_to_await_bind (m : Async ()) (f : () → Async ()) st :
  run_to_await (bind m f) st =
    match (run_to_await m st).2 with
    | Some k => ((run_to_await m st).1, Some (λ o, bind (k o) f))
    | None => run_to_await (f ()) (run_to_await m st).1
    end.
Proof.
  revert st. induction m as [[]|v k IH|g k IH|c k IH]; intros st; simpl; auto.
Qed.

Lemma run_to_await_executeStep shs index cur s st :
  shs ≠ [] → cur !! index = Some s →
  run_to_await (executeStep (Some <$> shs) index cur) st =
    (map_at index (with_status analyzing) st, Some (after_call index)).
Proof.
  intros Hshs Hs. unfold executeStep.
  rewrite decide_False by (rewrite length_fmap; by destruct shs).
  rewrite Hs, call_arguments_defined. simpl. do 2 f_equal.
Qed.

Lemma run_to_await_loop shs cur i m st :
  shs ≠ [] → i + m ≤ length cur →
  run_to_await (for_await (seq i m) (λ i, executeStep (Some <$> shs) i cur)) st =
    match m with
    | 0 => (st, None)
    | S m' =>
        (map_at i (with_status analyzing) st,
         Some (λ o, bind (after_call i o)
                      (λ _, for_await (seq (S i) m')
                              (λ i, executeStep (Some <$> shs) i cur))))
    end.
Proof.
  intros Hshs Hlen. destruct m as [|m]; [done|].
  destruct (lookup_lt_is_Some_2 cur i ltac:(lia)) as [s Hs].
  cbn [seq for_await]. rewrite run_to_await_bind.
  by rewrite (run_to_await_executeStep shs i cur s st Hshs Hs).
Qed.

Lemma perform_runAnalysis shs clock cs c :
  activeSheets (app c) = Some <$> shs → shs ≠ [] → cs ≠ [] →
  ∃ k,
    perform (RunAnalysis clock (Some cs)) c =
      {| app := setStepAnalyses
                  (map_at 0 (with_status analyzing) (initial_steps clock cs)) (app c);
         tasks := tasks c ++ [k] |} ∧
    ∀ o, k o = bind (after_call 0 o)
                 (λ _, for_await (seq 1 (length cs - 1))
                         (λ i, executeStep (Some <$> shs) i (initial_steps clock cs))).
Proof.
  intros Hact Hshs Hcs. simpl. rewrite Hact. unfold runAnalysis.
  rewrite decide_False by (by destruct cs). unfold start. cbn [run_to_await].
  rewrite run_to_await_loop by (rewrite ?length_initial_steps; done || lia).
  rewrite length_initial_steps. destruct (length cs) as [|n] eqn:Hn.
  { by destruct cs. }
  eexists. split; [reflexivity|]. intros o. simpl. by rewrite Nat.sub_0_r.
Qed.

(** X18: results are written by position.  When [runAnalysis] is invoked
    again while the first call of an earlier run has not settled, the
    settlement of that earlier call marks the first step of the new list
    [done] and gives it the result of the earlier call, although the call
    of the new step is still waiting. *)
Theorem X18_results_written_by_position c0 shs clock1 cs1 clock2 cs2 s2 res :
  activeSheets (app c0) = Some <$> shs → shs ≠ [] → cs1 ≠ [] → cs2 !! 0 = Some s2 →
  let c1 := perform (RunAnalysis clock1 (Some cs1)) c0 in
  let c2 := perform (RunAnalysis clock2 (Some cs2)) c1 in
  let c3 := perform (Settle (length (tasks c0)) (Resolved res)) c2 in
  (∃ k1 k2 rest, tasks c1 = tasks c0 ++ [k1] ∧ tasks c2 = tasks c0 ++ [k1; k2] ∧
     tasks c3 = tasks c0 ++ k2 :: rest) ∧
  stepAnalyses (app c2) !! 0 = Some (with_status analyzing (parse_step (clock2 0) 0 s2)) ∧
  stepAnalyses (app c3) !! 0 =
    Some {| id := step_id (clock2 0) 0;
            title := title (parse_step (clock2 0) 0 s2);
            description := description (parse_step (clock2 0) 0 s2);
            status := done; result := Some res |}.
Proof.
  intros Hact Hshs Hcs1 Hs2 c1 c2 c3.
  assert (Hcs2 : cs2 ≠ []) by (by destruct cs2).
  assert (Hlen1 : 0 < length cs1) by (destruct cs1; simpl; [done|lia]).
  destruct (perform_runAnalysis shs clock1 cs1 c0 Hact Hshs Hcs1) as (k1 & Hc1 & Hk1).
  fold c1 in Hc1. clearbody c1.
  assert (Hact1 : activeSheets (app c1) = Some <$> shs) by (by rewrite Hc1).
  destruct (perform_runAnalysis shs clock2 cs2 c1 Hact1 Hshs Hcs2) as (k2 & Hc2 & Hk2).
  fold c2 in Hc2. clearbody c2.
  assert (Ht1 : tasks c1 = tasks c0 ++ [k1]) by (by rewrite Hc1).
  assert (Ht2 : tasks c2 = tasks c0 ++ [k1; k2]).
  { rewrite Hc2. cbn [tasks]. rewrite Ht1. by rewrite <- app_assoc. }
  assert (Hs0 : stepAnalyses (app c2) !! 0
                = Some (with_status analyzing (parse_step (clock2 0) 0 s2))).
  { rewrite Hc2. cbn [app stepAnalyses setStepAnalyses].
    by rewrite lookup_map_at_eq, lookup_initial_steps, Hs2. }
  assert (Hk : tasks c2 !! length (tasks c0) = Some k1).
  { rewrite Ht2. by rewrite lookup_app_r, Nat.sub_diag by lia. }
  split_and!; [|done|].
  - exists k1, k2. eexists. split_and!; [done|done|].
    subst c3. cbn [perform]. rewrite Hk. unfold start. cbn [tasks].
    rewrite Ht2, delete_middle, <- app_assoc. reflexivity.
  - subst c3. cbn [perform]. rewrite Hk. unfold start. cbn [app stepAnalyses setStepAnalyses].
    rewrite Hk1. cbn [after_call bind run_to_await].
    rewrite run_to_await_loop by (rewrite ?length_initial_steps; done || lia).
    destruct (length cs1 - 1) as [|m]; cbn [fst];
      rewrite ?lookup_map_at_ne by lia; by rewrite lookup_map_at_eq, Hs0.
Qed.

Lemma X18_results_written_by_position_witness :
  activeSheets (app (perform (DataLoaded [sample_file]) initialConfig))
    = Some <$> [sample_sheet] ∧
  [sample_sheet] ≠ [] ∧ sample_steps ≠ [] ∧
  [of_ascii "Count: rows"] !! 0 = Some (of_ascii "Count: rows") ∧
  status <$> stepAnalyses (app
      (perform (Settle 0 (Resolved sample_result))
         (perform (RunAnalysis sample_clock (Some [of_ascii "Count: rows"]))
            (perform (RunAnalysis sample_clock (Some sample_steps))
               (perform (DataLoaded [sample_file]) initialConfig))))) !! 0
    = Some done.
Proof.
  assert (H1 : activeSheets (app (perform (DataLoaded [sample_file]) initialConfig))
               = Some <$> [sample_sheet]) by reflexivity.
  assert (H2 : [sample_sheet] ≠ []) by discriminate.
  assert (H3 : sample_steps ≠ []) by discriminate.
  assert (H4 : [of_ascii "Count: rows"] !! 0 = Some (of_ascii "Count: rows"))
    by reflexivity.
  split_and!; [exact H1|exact H2|exact H3|exact H4|].
  pose proof (proj2 (proj2 (X18_results_written_by_position
    (perform (DataLoaded [sample_file]) initialConfig) [sample_sheet]
    sample_clock sample_steps sample_clock [of_ascii "Count: rows"] _ sample_result
    H1 H2 H3 H4))) as H.
  change (length (tasks (perform (DataLoaded [sample_file]) initialConfig))) with 0 in H.
  rewrite H. reflexivity.
Defined.


(** ** Order of the selection *)

Lemma selection_order_cons k v (m : JsMap) :
  selection_order ((k, v) :: m) = ((λ s, (k, s)) <$> v) ++ selection_order m.
Proof. done. Qed.

Lemma selection_order_map_set (P : nat * nat → Prop) `{∀ p, Decision (P p)} f v (m : JsMap) :
  filter P ((λ s, (f, s)) <$> v)
    = filter P ((λ s, (f, s)) <$> default [] (map_get f m)) →
  filter P (selection_order (map_set f v m)) = filter P (selection_order m).
Proof.
  induction m as [|[k0 v0] m IH]; cbn [map_set map_get].
  - intros Hv. rewrite selection_order_cons, filter_app, Hv. done.
  - destruct (decide (k0 = f)) as [->|Hne]; simpl default; intros Hv.
    + by rewrite !selection_order_cons, !filter_app, Hv.
    + rewrite !selection_order_cons, !filter_app, IH; done.
Qed.

Lemma map_delete_absent k (m : JsMap) : k ∉ m.*1 → map_delete k m = m.
Proof.
  unfold map_delete. induction m as [|[k0 v0] m IH]; [done|].
  rewrite fmap_cons, not_elem_of_cons. simpl. intros [Hne Hk].
  rewrite filter_cons_True by (simpl; congruence). by rewrite IH.
Qed.

Lemma selection_order_map_delete (P : nat * nat → Prop) `{∀ p, Decision (P p)} f (m : JsMap) :
  NoDup m.*1 →
  filter P ((λ s, (f, s)) <$> default [] (map_get f m)) = [] →
  filter P (selection_order (map_delete f m)) = filter P (selection_order m).
Proof.
  induction m as [|[k0 v0] m IH]; intros Hnd Hv; [done|].
  rewrite fmap_cons in Hnd. apply NoDup_cons in Hnd as [Hk0 Hnd].
  cbn [map_get] in Hv. unfold map_delete in *. revert Hv.
  destruct (decide (k0 = f)) as [->|Hne]; intros Hv; simpl in Hv.
  - rewrite filter_cons_False by (simpl; tauto).
    fold (map_delete f m). rewrite map_delete_absent by done.
    by rewrite selection_order_cons, filter_app, Hv.
  - rewrite filter_cons_True by done.
    rewrite !selection_order_cons, !filter_app, IH; done.
Qed.

Lemma filter_pairs (f s : nat) (l : list nat) :
  filter (λ p, p ≠ (f, s)) ((λ x, (f, x)) <$> l)
  = (λ x, (f, x)) <$> filter (λ x, x ≠ s) l.
Proof.
  induction l as [|x l IH]; [done|].
  rewrite fmap_cons, !filter_cons, IH.
  destruct (decide (x ≠ s)) as [Hx|Hx].
  - rewrite decide_True by congruence. done.
  - rewrite decide_False; [done|]. intros Hn. apply Hx. intros ->. by apply Hn.
Qed.

Lemma filter_pairs_toggle (f s : nat) cur :
  filter (λ p, p ≠ (f, s))
    ((λ x, (f, x)) <$> (if set_has s cur then set_delete s cur else set_add s cur))
  = filter (λ p, p ≠ (f, s)) ((λ x, (f, x)) <$> cur).
Proof.
  rewrite !filter_pairs. f_equal. destruct (set_has s cur) eqn:Hs.
  - unfold set_delete. rewrite list_filter_filter.
    apply list_filter_iff. intros x. simpl. tauto.
  - unfold set_add. rewrite Hs, filter_app.
    rewrite filter_cons_False, filter_nil, app_nil_r by tauto. done.
Qed.

(** X19: toggling a sheet keeps the order of all other selected sheets, in
    which their rows are sent to the service: the selection in iteration
    order, without the toggled sheet, is the same before and after. *)
Theorem X19_toggle_keeps_order fileIdx sheetIdx st :
  wf_map (selectedSheetsMap st) →
  filter (λ p, p ≠ (fileIdx, sheetIdx))
    (selection_order (selectedSheetsMap (handleToggleSheet fileIdx sheetIdx st)))
  = filter (λ p, p ≠ (fileIdx, sheetIdx)) (selection_order (selectedSheetsMap st)).
Proof.
  intros Hwf. unfold handleToggleSheet. simpl.
  rewrite new_Map_id by apply Hwf.
  set (m := selectedSheetsMap st) in *.
  set (cur := default [] (map_get fileIdx m)).
  assert (Hcur : NoDup cur).
  { unfold cur. destruct (map_get fileIdx m) as [v|] eqn:Hv; simpl;
      [by eapply map_get_wf|constructor]. }
  rewrite new_Set_id by done.
  pose proof (filter_pairs_toggle fileIdx sheetIdx cur) as Ht.
  case_decide as Hsize.
  - apply selection_order_map_delete; [apply Hwf|]. fold cur. rewrite <- Ht.
    assert ((if set_has sheetIdx cur then set_delete sheetIdx cur
             else set_add sheetIdx cur) = []) as ->; [|done].
    by destruct (if set_has sheetIdx cur then _ else _).
  - by apply selection_order_map_set.
Qed.

Lemma X19_toggle_keeps_order_witness :
  wf_map (selectedSheetsMap sample_state) ∧
  filter (λ p, p ≠ (0, 2))
    (selection_order (selectedSheetsMap (handleToggleSheet 0 2 sample_state)))
  = [(0, 0)].
Proof.
  assert (H : wf_map (selectedSheetsMap sample_state)).
  { split; simpl; repeat constructor; by intros ?%elem_of_nil. }
  split; [exact H|].
  rewrite (X19_toggle_keeps_order 0 2 sample_state H). reflexivity.
Defined.
